(** * clientgo_demo: the listers and the provisioner, as programs over the
      cluster API client

    The repository holds small command-line programs that drive a cluster
    through the client library: a dynamic pod lister, a typed REST pod
    lister, and a provisioner that creates or deletes a namespace, a
    deployment and a service.

    Every program is a straight line of library calls with a panic after each
    failed one.  The embedding keeps that shape: a program is a finite tree
    of calls ([prog]), every library entry point the programs use is a
    constructor of [call] indexed by the type of what it returns, and
    [panic(...)] is a leaf.  What a program can do is then read off in two
    ways: [exec] relates a program to every trace some environment can
    drive it through, and [run] executes it against one backend given as a
    state-passing handler. *)

From Stdlib Require Import ZArith Ascii String.
From stdpp Require Import gmap strings list.

Open Scope string_scope.
Open Scope Z_scope.
Open Scope list_scope.

(** ** Go values *)

(** A Go [error], seen through [err.Error()]. *)
Definition error := string.

(** The pair [(value, err)] a library call returns. *)
Inductive result (A : Type) : Type :=
| Ok (a : A)
| Err (e : error).
Arguments Ok {A} a.
Arguments Err {A} e.

Definition TAB : string := String "009"%char "".
Definition NL : string := String "010"%char "".

(** The elements of a path: what lies between its separators
    ([strings.Split(path, "/")]). *)
Fixpoint path_elements (path : string) : list string :=
  match path with
  | EmptyString => [""]
  | String c rest =>
      if Ascii.eqb c "/" then "" :: path_elements rest
      else match path_elements rest with
           | [] => [String c ""]
           | e :: es => String c e :: es
           end
  end.

(** One element read by [filepath.Clean]; [kept] holds the elements
    written so far, the last one first.  An empty element and [.] are
    dropped; [..] takes back the element before it, unless there is none
    or it is itself [..]: then it is dropped in a rooted path and kept in
    a relative one. *)
Definition clean_element (rooted : bool) (kept : list string) (e : string) :
    list string :=
  if decide (e = "" ∨ e = ".") then kept
  else if decide (e = "..") then
    match kept with
    | last :: before => if decide (last = "..") then e :: kept else before
    | [] => if rooted then [] else [e]
    end
  else e :: kept.

(** [filepath.Clean] on a system whose separator is the slash and whose
    paths have no volume name. *)
Definition filepath_Clean (path : string) : string :=
  if decide (path = "") then "."
  else
    let rooted := match path with
                  | String c _ => Ascii.eqb c "/"
                  | EmptyString => false
                  end in
    let kept := reverse (foldl (clean_element rooted) [] (path_elements path)) in
    let out := (if rooted then "/" else "") +:+ String.concat "/" kept in
    if decide (out = "") then "." else out.

(** [filepath.Join]: from the first non-empty element on, the elements
    joined by the separator, and the result cleaned; the empty string when
    every element is empty. *)
Fixpoint filepath_Join (elems : list string) : string :=
  match elems with
  | [] => ""
  | e :: rest =>
      if decide (e = "") then filepath_Join rest
      else filepath_Clean (String.concat "/" elems)
  end.

(** ** The API objects, with the fields the programs set or read.
    Every field a struct literal of the source leaves out keeps Go's zero
    value; fields that no program touches are not represented. *)

Module ObjectMeta.
Record t := { Name : string; Namespace : string; Labels : gmap string string }.
End ObjectMeta.

Module LabelSelector.
Record t := { MatchLabels : gmap string string }.
End LabelSelector.

Module ListOptions.
Record t := { LabelSelector : string; FieldSelector : string;
              Limit : Z; Continue : string }.
End ListOptions.

Module CreateOptions.
Record t := { DryRun : list string; FieldManager : string }.
End CreateOptions.

Module DeleteOptions.
Record t := { GracePeriodSeconds : option Z;
              OrphanDependents : option bool;
              PropagationPolicy : option string;
              DryRun : list string }.
End DeleteOptions.

Module Namespace.
Record t := { ObjectMeta : ObjectMeta.t }.
End Namespace.

Module PodStatus.
Record t := { Phase : string }.
End PodStatus.

Module Pod.
Record t := { ObjectMeta : ObjectMeta.t; Status : PodStatus.t }.
End Pod.

Module PodList.
Record t := { Items : list Pod.t }.
End PodList.

(** [type Protocol string] with the library's constants. *)
Definition Protocol := string.
Definition ProtocolTCP : Protocol := "TCP".
Definition ProtocolUDP : Protocol := "UDP".
Definition ProtocolSCTP : Protocol := "SCTP".

Module ContainerPort.
Record t := { Name : string; Protocol : Protocol; ContainerPort : Z }.
End ContainerPort.

Module Container.
Record t := { Name : string; Image : string; ImagePullPolicy : string;
              Ports : list ContainerPort.t }.
End Container.

Module PodSpec.
Record t := { Containers : list Container.t }.
End PodSpec.

Module PodTemplateSpec.
Record t := { ObjectMeta : ObjectMeta.t; Spec : PodSpec.t }.
End PodTemplateSpec.

Module DeploymentSpec.
(** [Replicas] is a [*int32] and [Selector] a [*LabelSelector]: [None] is
    the nil pointer. *)
Record t := { Replicas : option Z;
              Selector : option LabelSelector.t;
              Template : PodTemplateSpec.t }.
End DeploymentSpec.

Module Deployment.
Record t := { ObjectMeta : ObjectMeta.t; Spec : DeploymentSpec.t }.
End Deployment.

Module ServicePort.
Record t := { Name : string; Port : Z; NodePort : Z }.
End ServicePort.

Definition ServiceType := string.
Definition ServiceTypeNodePort : ServiceType := "NodePort".

Module ServiceSpec.
Record t := { Ports : list ServicePort.t;
              Selector : gmap string string;
              Type_ : ServiceType }.
End ServiceSpec.

Module Service.
Record t := { ObjectMeta : ObjectMeta.t; Spec : ServiceSpec.t }.
End Service.

Module GroupVersion.
Record t := { Group : string; Version : string }.
End GroupVersion.

Module GroupVersionResource.
Record t := { Group : string; Version : string; Resource : string }.
End GroupVersionResource.

#[global] Instance GroupVersionResource_eq_dec : EqDecision GroupVersionResource.t.
Proof. solve_decision. Defined.

(** [corev1.SchemeGroupVersion]: the core group, version v1. *)
Definition SchemeGroupVersion : GroupVersion.t :=
  {| GroupVersion.Group := ""; GroupVersion.Version := "v1" |}.

(** [rest.Config]: what the kubeconfig file yielded (kept opaque as [Host])
    and the three fields the REST lister assigns. *)
Module Config.
Record t := { Host : string;
              APIPath : string;
              GroupVersion : option GroupVersion.t;
              NegotiatedSerializer : option string }.
End Config.

(** [scheme.Codecs], the library's standard codec factory. *)
Definition scheme_Codecs : string := "scheme.Codecs".

(** The zero values the struct literals of the source rely on. *)
Definition meta (name : string) : ObjectMeta.t :=
  {| ObjectMeta.Name := name; ObjectMeta.Namespace := ""; ObjectMeta.Labels := ∅ |}.

Definition ListOptions_limit (n : Z) : ListOptions.t :=
  {| ListOptions.LabelSelector := ""; ListOptions.FieldSelector := "";
     ListOptions.Limit := n; ListOptions.Continue := "" |}.

Definition ListOptions_zero : ListOptions.t := ListOptions_limit 0.

Definition CreateOptions_zero : CreateOptions.t :=
  {| CreateOptions.DryRun := []; CreateOptions.FieldManager := "" |}.

Definition DeleteOptions_zero : DeleteOptions.t :=
  {| DeleteOptions.GracePeriodSeconds := None;
     DeleteOptions.OrphanDependents := None;
     DeleteOptions.PropagationPolicy := None;
     DeleteOptions.DryRun := [] |}.

(** The untyped content a dynamic list call returns
    ([map[string]interface{}] and what it nests). *)
#[local] Set Warnings "-register-all".
Inductive unstructured : Type :=
| UNull
| UBool (b : bool)
| UInt (n : Z)
| UString (s : string)
| USlice (l : list unstructured)
| UMap (fields : list (string * unstructured)).

(** Client handles; each remembers the configuration it was built from. *)
Inductive RESTClient := mkRESTClient (c : Config.t).
Inductive Clientset := mkClientset (c : Config.t).
Inductive DynamicClient := mkDynamicClient (c : Config.t).

(** ** The library entry points the programs call

    [call X] is a call whose Go return value has type [X].  A call that
    returns [(value, err)] answers a [result]; a delete, which returns only
    [err], answers [Some e] or [None] for nil.  [flag_Parse] answers the
    flags the command line sets (name to value).  [REST_Get_Into] is the
    chain [Get().Namespace(ns).Resource(r).VersionedParams(opts, _).Do(ctx).Into(obj)],
    answering what [Into] stores; [Dynamic_List] is
    [Resource(gvr).Namespace(ns).List(ctx, opts)] followed by
    [UnstructuredContent()]. *)
Inductive call : Type → Type :=
| homedir_HomeDir : call string
| flag_Parse : call (gmap string string)
| clientcmd_BuildConfigFromFlags (masterUrl kubeconfigPath : string) :
    call (result Config.t)
| rest_RESTClientFor (config : Config.t) : call (result RESTClient)
| kubernetes_NewForConfig (config : Config.t) : call (result Clientset)
| dynamic_NewForConfig (config : Config.t) : call (result DynamicClient)
| Namespaces_List (cs : Clientset) (opts : ListOptions.t) :
    call (result (list Namespace.t))
| REST_Get_Into (rc : RESTClient) (namespace resource : string)
    (opts : ListOptions.t) : call (result PodList.t)
| Dynamic_List (dc : DynamicClient) (gvr : GroupVersionResource.t)
    (namespace : string) (opts : ListOptions.t) : call (result unstructured)
| FromUnstructured (u : unstructured) : call (result PodList.t)
| Namespaces_Create (cs : Clientset) (ns : Namespace.t)
    (opts : CreateOptions.t) : call (result Namespace.t)
| Deployments_Create (cs : Clientset) (namespace : string)
    (d : Deployment.t) (opts : CreateOptions.t) : call (result Deployment.t)
| Services_Create (cs : Clientset) (namespace : string)
    (s : Service.t) (opts : CreateOptions.t) : call (result Service.t)
| Services_Delete (cs : Clientset) (namespace name : string)
    (opts : DeleteOptions.t) : call (option error)
| Deployments_Delete (cs : Clientset) (namespace name : string)
    (opts : DeleteOptions.t) : call (option error)
| Namespaces_Delete (cs : Clientset) (name : string)
    (opts : DeleteOptions.t) : call (option error)
| fmt_Printf (format : string) (args : list string) : call unit.

(** ** Programs *)

Inductive prog (A : Type) : Type :=
| Ret (a : A)
| Panic (v : string)
| Vis {X : Type} (c : call X) (k : X → prog A).
Arguments Ret {A} a.
Arguments Panic {A} v.
Arguments Vis {A X} c k.

Fixpoint bind {A B} (p : prog A) (f : A → prog B) : prog B :=
  match p with
  | Ret a => f a
  | Panic v => Panic v
  | Vis c k => Vis c (λ r, bind (k r) f)
  end.

Definition perform {X} (c : call X) : prog X := Vis c Ret.

Declare Scope prog_scope.
Delimit Scope prog_scope with prog.
Notation "x <- p ;; q" := (bind p (λ x, q))
  (at level 100, p at next level, right associativity) : prog_scope.
Notation "p ;; q" := (bind p (λ _, q))
  (at level 100, right associativity) : prog_scope.
Open Scope prog_scope.

(** [for _, x := range l { body }], with the variables the body assigns
    threaded through as [s]. *)
Fixpoint range {A S} (l : list A) (body : A → S → prog S) (s : S) : prog S :=
  match l with
  | [] => Ret s
  | x :: l' => s' <- body x s ;; range l' body s'
  end.

(** How a run ends. *)
Inductive outcome (A : Type) : Type :=
| Done (a : A)
| Panicked (v : string).
Arguments Done {A} a.
Arguments Panicked {A} v.

(** One completed call with what it returned. *)
Inductive event : Type :=
| Ev {X : Type} (c : call X) (r : X).

Definition trace := list event.

(** [exec p t o]: some environment answers the calls of [p] as recorded in [t],
    and the run ends in [o]. *)
Fixpoint exec {A} (p : prog A) (t : trace) (o : outcome A) : Prop :=
  match p with
  | Ret a => t = [] ∧ o = Done a
  | Panic v => t = [] ∧ o = Panicked v
  | Vis c k => ∃ r t', t = Ev c r :: t' ∧ exec (k r) t' o
  end.

(** A backend answers every call from its state. *)
Definition backend (S : Type) : Type := ∀ X, call X → S → X * S.

Record ran (S A : Type) : Type :=
  { final : outcome A; events : trace; state : S }.
Arguments final {S A} _.
Arguments events {S A} _.
Arguments state {S A} _.

Fixpoint run {S A} (h : backend S) (p : prog A) (s : S) : ran S A :=
  match p with
  | Ret a => {| final := Done a; events := []; state := s |}
  | Panic v => {| final := Panicked v; events := []; state := s |}
  | Vis c k =>
      let '(r, s1) := h _ c s in
      let rest := run h (k r) s1 in
      {| final := final rest; events := Ev c r :: events rest;
         state := state rest |}
  end.

(** ** The [flag] package, as far as the programs use it *)

Record Flag := { flag_name : string; flag_value : string; flag_usage : string }.

(** [flag.String(name, value, usage)] *)
Definition flag_String (name value usage : string) : Flag :=
  {| flag_name := name; flag_value := value; flag_usage := usage |}.

(** [*f] after [flag.Parse()] answered [parsed]. *)
Definition deref (parsed : gmap string string) (f : Flag) : string :=
  default (flag_value f) (parsed !! flag_name f).

(** [v, err := f(...); if err != nil { panic(err.Error()) }] *)
Definition must {A} (c : call (result A)) : prog A :=
  r <- perform c ;;
  match r with
  | Ok a => Ret a
  | Err e => Panic e
  end.

(** [if err := f(...); err != nil { panic(err.Error()) }] *)
Definition must_nil (c : call (option error)) : prog unit :=
  r <- perform c ;;
  match r with
  | None => Ret tt
  | Some e => Panic e
  end.

(** What the Go runtime panics with when a method reads a field through a
    nil receiver. *)
Definition nil_dereference : string :=
  "runtime error: invalid memory address or nil pointer dereference".

(** ** src/dynamicClient/main.go, first program: the dynamic lister *)
Module DynamicLister.

Definition header : string :=
  "namespace" +:+ TAB +:+ " status" +:+ TAB +:+ TAB +:+ " name" +:+ NL.
Definition row : string :=
  "%v" +:+ TAB +:+ " %v" +:+ TAB +:+ TAB +:+ " %v" +:+ NL.

Definition gvr : GroupVersionResource.t :=
  {| GroupVersionResource.Group := "";
     GroupVersionResource.Version := "v1";
     GroupVersionResource.Resource := "pods" |}.

Definition main : prog unit :=
  home <- perform homedir_HomeDir ;;
  let kubeconfig :=
    if decide (home ≠ "")
    then flag_String "kubeconfig" (filepath_Join [home; ".kube"; "config"])
           "(option) absolute path to the kubeconfig file"
    else flag_String "kubeconfig" "" "absolute path to the kubeconfig file" in
  parsed <- perform flag_Parse ;;
  config <- must (clientcmd_BuildConfigFromFlags "" (deref parsed kubeconfig)) ;;
  dynamicClient <- must (dynamic_NewForConfig config) ;;
  unstructObj <- must (Dynamic_List dynamicClient gvr "kube-system"
                         (ListOptions_limit 100)) ;;
  podList <- must (FromUnstructured unstructObj) ;;
  perform (fmt_Printf header []) ;;
  range (PodList.Items podList)
    (λ d _, perform (fmt_Printf row
               [ObjectMeta.Namespace (Pod.ObjectMeta d);
                PodStatus.Phase (Pod.Status d);
                ObjectMeta.Name (Pod.ObjectMeta d)])) tt.

End DynamicLister.

(** The three assignments [config.APIPath = "api"],
    [config.GroupVersion = &corev1.SchemeGroupVersion] and
    [config.NegotiatedSerializer = scheme.Codecs] of both REST listers. *)
Definition core_v1_config (config : Config.t) : Config.t :=
  {| Config.Host := Config.Host config;
     Config.APIPath := "api";
     Config.GroupVersion := Some SchemeGroupVersion;
     Config.NegotiatedSerializer := Some scheme_Codecs |}.

(** ** src/restclientdemo-1/main.go, first program: the typed REST lister *)
Module RestLister.

Definition header : string :=
  "namespace" +:+ TAB +:+ " status" +:+ TAB +:+ " name" +:+ NL.
Definition row : string :=
  "%v" +:+ TAB +:+ " %v" +:+ TAB +:+ " %v" +:+ NL.

(** The body of [for _, ns := range namespaces.Items]; [result] is the
    one [PodList] declared before the loop, which [Into] overwrites. *)
Definition each_namespace (restClient : RESTClient)
    (ns : Namespace.t) (result : PodList.t) : prog PodList.t :=
  let namespace := ObjectMeta.Name (Namespace.ObjectMeta ns) in
  result <- must (REST_Get_Into restClient namespace "pods"
                    (ListOptions_limit 500)) ;;
  range (PodList.Items result)
    (λ d _, perform (fmt_Printf row
               [ObjectMeta.Namespace (Pod.ObjectMeta d);
                PodStatus.Phase (Pod.Status d);
                ObjectMeta.Name (Pod.ObjectMeta d)])) tt ;;
  Ret result.

Definition main : prog unit :=
  home <- perform homedir_HomeDir ;;
  let kubeconfig :=
    if decide (home ≠ "")
    then flag_String "kubeconfig" (filepath_Join [home; ".kube"; "config"])
           "(option) absolute path to the kubeconfig file"
    else flag_String "kubeconfig" "" "absolute path to the kubeconfig file" in
  parsed <- perform flag_Parse ;;
  config <- must (clientcmd_BuildConfigFromFlags "" (deref parsed kubeconfig)) ;;
  let config := core_v1_config config in
  restClient <- must (rest_RESTClientFor config) ;;
  clientSet <- must (kubernetes_NewForConfig config) ;;
  let result := {| PodList.Items := [] |} in
  namespaces <- must (Namespaces_List clientSet ListOptions_zero) ;;
  perform (fmt_Printf header []) ;;
  range namespaces (each_namespace restClient) result ;;
  Ret tt.

End RestLister.

(** ** src/dynamicClient/main.go, second program: the typed REST lister
       again, with comments.  It declares [result] before building the
       clientset, does not test the error of [kubernetes.NewForConfig] (the
       next statement reassigns [err]), so a failed construction leaves
       [clientSet] nil and [clientSet.CoreV1()] panics in the runtime; it
       panics with [err] itself, not [err.Error()], when listing the
       namespaces fails; its header has two more tabs. *)
Module RestListerAnnotated.

Definition header : string :=
  "namespace" +:+ TAB +:+ TAB +:+ " status" +:+ TAB +:+ TAB +:+ " name" +:+ NL.
Definition row : string := RestLister.row.

Definition each_namespace (restClient : RESTClient)
    (ns : Namespace.t) (result : PodList.t) : prog PodList.t :=
  let namespace := ObjectMeta.Name (Namespace.ObjectMeta ns) in
  result <- must (REST_Get_Into restClient namespace "pods"
                    (ListOptions_limit 500)) ;;
  range (PodList.Items result)
    (λ d _, perform (fmt_Printf row
               [ObjectMeta.Namespace (Pod.ObjectMeta d);
                PodStatus.Phase (Pod.Status d);
                ObjectMeta.Name (Pod.ObjectMeta d)])) tt ;;
  Ret result.

Definition main : prog unit :=
  home <- perform homedir_HomeDir ;;
  let kubeconfig :=
    if decide (home ≠ "")
    then flag_String "kubeconfig" (filepath_Join [home; ".kube"; "config"])
           "(optional) absolute path to the kubeconfig file"
    else flag_String "kubeconfig" "" "absolute path to the kubeconfig file" in
  parsed <- perform flag_Parse ;;
  config <- must (clientcmd_BuildConfigFromFlags "" (deref parsed kubeconfig)) ;;
  let config := core_v1_config config in
  restClient <- must (rest_RESTClientFor config) ;;
  let result := {| PodList.Items := [] |} in
  clientSet <- perform (kubernetes_NewForConfig config) ;;
  match clientSet with
  | Err _ => Panic nil_dereference
  | Ok clientSet =>
      namespaces <- must (Namespaces_List clientSet ListOptions_zero) ;;
      perform (fmt_Printf header []) ;;
      range namespaces (each_namespace restClient) result ;;
      Ret tt
  end.

End RestListerAnnotated.

(** ** src/restclientdemo-1/main.go, third program: the provisioner *)
Module Provisioner.

Definition NAMESPACE : string := "test-clientset".
Definition DEPLOYMENT_NAME : string := "client-test-deployment".
Definition SERVICE_NAME : string := "client-test-service".

Definition clean (clientset : Clientset) : prog unit :=
  let emptyDeleteOptions := DeleteOptions_zero in
  must_nil (Services_Delete clientset NAMESPACE SERVICE_NAME emptyDeleteOptions) ;;
  must_nil (Deployments_Delete clientset NAMESPACE DEPLOYMENT_NAME emptyDeleteOptions) ;;
  must_nil (Namespaces_Delete clientset NAMESPACE emptyDeleteOptions).

Definition namespace : Namespace.t :=
  {| Namespace.ObjectMeta := meta NAMESPACE |}.

Definition createNamespace (clientset : Clientset) : prog unit :=
  result <- must (Namespaces_Create clientset namespace CreateOptions_zero) ;;
  perform (fmt_Printf ("Create namespace %s " +:+ NL)
             [ObjectMeta.Name (Namespace.ObjectMeta result)]).

Definition service : Service.t :=
  {| Service.ObjectMeta := meta SERVICE_NAME;
     Service.Spec :=
       {| ServiceSpec.Ports :=
            [ {| ServicePort.Name := "http";
                 ServicePort.Port := 8080;
                 ServicePort.NodePort := 30080 |} ];
          ServiceSpec.Selector := {[ "app" := "tomcat" ]};
          ServiceSpec.Type_ := ServiceTypeNodePort |} |}.

Definition createService (clientset : Clientset) : prog unit :=
  result <- must (Services_Create clientset NAMESPACE service CreateOptions_zero) ;;
  perform (fmt_Printf ("Create service %s " +:+ NL)
             [ObjectMeta.Name (Service.ObjectMeta result)]).

Definition deployment : Deployment.t :=
  {| Deployment.ObjectMeta := meta DEPLOYMENT_NAME;
     Deployment.Spec :=
       {| DeploymentSpec.Replicas := None;
          DeploymentSpec.Selector :=
            Some {| LabelSelector.MatchLabels := {[ "app" := "tomcat" ]} |};
          DeploymentSpec.Template :=
            {| PodTemplateSpec.ObjectMeta :=
                 {| ObjectMeta.Name := ""; ObjectMeta.Namespace := "";
                    ObjectMeta.Labels := {[ "app" := "tomcat" ]} |};
               PodTemplateSpec.Spec :=
                 {| PodSpec.Containers :=
                      [ {| Container.Name := "tomcat";
                           Container.Image := "tomcat:8.0.18-jre8";
                           Container.ImagePullPolicy := "IfNotPresent";
                           Container.Ports :=
                             [ {| ContainerPort.Name := "http";
                                  ContainerPort.Protocol := ProtocolSCTP;
                                  ContainerPort.ContainerPort := 8080 |} ]
                        |} ] |} |} |} |}.

Definition createDeployment (clientset : Clientset) : prog unit :=
  result <- must (Deployments_Create clientset NAMESPACE deployment
                    CreateOptions_zero) ;;
  perform (fmt_Printf ("Create deployment %s " +:+ NL)
             [ObjectMeta.Name (Deployment.ObjectMeta result)]).

Definition main : prog unit :=
  home <- perform homedir_HomeDir ;;
  let kubeconfig :=
    if decide (home ≠ "")
    then flag_String "kubeconfig" (filepath_Join [home; ".kube"; "config"])
           "(option) absolute path to the kubeconfig file"
    else flag_String "kubeconfig" "" "absolute path to the kubeconfig file" in
  let operate := flag_String "operate" "create" "operate type: create or clean" in
  parsed <- perform flag_Parse ;;
  config <- must (clientcmd_BuildConfigFromFlags "" (deref parsed kubeconfig)) ;;
  clientset <- must (kubernetes_NewForConfig config) ;;
  perform (fmt_Printf ("operate is %v" +:+ NL) [deref parsed operate]) ;;
  if decide ("clean" = deref parsed operate)
  then clean clientset
  else
    createNamespace clientset ;;
    createDeployment clientset ;;
    createService clientset.

End Provisioner.

(** ** src/restclientdemo-1/main.go, second program: the provisioner with
       comments.  Its text differs from the third program in the usage
       strings of the flags and in the deployment, which sets
       [Replicas: pointer.Int32Ptr(2)]. *)
Module ProvisionerAnnotated.

Definition NAMESPACE : string := "test-clientset".
Definition DEPLOYMENT_NAME : string := "client-test-deployment".
Definition SERVICE_NAME : string := "client-test-service".

Definition clean (clientset : Clientset) : prog unit :=
  let emptyDeleteOptions := DeleteOptions_zero in
  must_nil (Services_Delete clientset NAMESPACE SERVICE_NAME emptyDeleteOptions) ;;
  must_nil (Deployments_Delete clientset NAMESPACE DEPLOYMENT_NAME emptyDeleteOptions) ;;
  must_nil (Namespaces_Delete clientset NAMESPACE emptyDeleteOptions).

Definition namespace : Namespace.t :=
  {| Namespace.ObjectMeta := meta NAMESPACE |}.

Definition createNamespace (clientset : Clientset) : prog unit :=
  result <- must (Namespaces_Create clientset namespace CreateOptions_zero) ;;
  perform (fmt_Printf ("Create namespace %s " +:+ NL)
             [ObjectMeta.Name (Namespace.ObjectMeta result)]).

Definition service : Service.t :=
  {| Service.ObjectMeta := meta SERVICE_NAME;
     Service.Spec :=
       {| ServiceSpec.Ports :=
            [ {| ServicePort.Name := "http";
                 ServicePort.Port := 8080;
                 ServicePort.NodePort := 30080 |} ];
          ServiceSpec.Selector := {[ "app" := "tomcat" ]};
          ServiceSpec.Type_ := ServiceTypeNodePort |} |}.

Definition createService (clientset : Clientset) : prog unit :=
  result <- must (Services_Create clientset NAMESPACE service CreateOptions_zero) ;;
  perform (fmt_Printf ("Create service %s " +:+ NL)
             [ObjectMeta.Name (Service.ObjectMeta result)]).

(** [pointer.Int32Ptr(i)]: a pointer to a fresh copy of [i]. *)
Definition pointer_Int32Ptr (i : Z) : option Z := Some i.

Definition deployment : Deployment.t :=
  {| Deployment.ObjectMeta := meta DEPLOYMENT_NAME;
     Deployment.Spec :=
       {| DeploymentSpec.Replicas := pointer_Int32Ptr 2;
          DeploymentSpec.Selector :=
            Some {| LabelSelector.MatchLabels := {[ "app" := "tomcat" ]} |};
          DeploymentSpec.Template :=
            {| PodTemplateSpec.ObjectMeta :=
                 {| ObjectMeta.Name := ""; ObjectMeta.Namespace := "";
                    ObjectMeta.Labels := {[ "app" := "tomcat" ]} |};
               PodTemplateSpec.Spec :=
                 {| PodSpec.Containers :=
                      [ {| Container.Name := "tomcat";
                           Container.Image := "tomcat:8.0.18-jre8";
                           Container.ImagePullPolicy := "IfNotPresent";
                           Container.Ports :=
                             [ {| ContainerPort.Name := "http";
                                  ContainerPort.Protocol := ProtocolSCTP;
                                  ContainerPort.ContainerPort := 8080 |} ]
                        |} ] |} |} |} |}.

Definition createDeployment (clientset : Clientset) : prog unit :=
  result <- must (Deployments_Create clientset NAMESPACE deployment
                    CreateOptions_zero) ;;
  perform (fmt_Printf ("Create deployment %s " +:+ NL)
             [ObjectMeta.Name (Deployment.ObjectMeta result)]).

Definition main : prog unit :=
  home <- perform homedir_HomeDir ;;
  let kubeconfig :=
    if decide (home ≠ "")
    then flag_String "kubeconfig" (filepath_Join [home; ".kube"; "config"])
           "(optional) absolute path to the kubeconfig file"
    else flag_String "kubeconfig" "" "absolute paht to the kubeconfig file" in
  let operate := flag_String "operate" "create" "operate type : create or clean" in
  parsed <- perform flag_Parse ;;
  config <- must (clientcmd_BuildConfigFromFlags "" (deref parsed kubeconfig)) ;;
  clientset <- must (kubernetes_NewForConfig config) ;;
  perform (fmt_Printf ("operate is %v" +:+ NL) [deref parsed operate]) ;;
  if decide ("clean" = deref parsed operate)
  then clean clientset
  else
    createNamespace clientset ;;
    createDeployment clientset ;;
    createService clientset.

End ProvisionerAnnotated.

(** The two provisioners and the two typed REST listers, by source text. *)
Inductive variant := Plain | Annotated.

Definition provisioner (v : variant) : prog unit :=
  match v with
  | Plain => Provisioner.main
  | Annotated => ProvisionerAnnotated.main
  end.

Definition provisioner_deployment (v : variant) : Deployment.t :=
  match v with
  | Plain => Provisioner.deployment
  | Annotated => ProvisionerAnnotated.deployment
  end.

Definition rest_lister (v : variant) : prog unit :=
  match v with
  | Plain => RestLister.main
  | Annotated => RestListerAnnotated.main
  end.

(** ** Reading a trace *)

(** The error a completed call returned, if it returned one. *)
Definition failure (e : event) : option error :=
  match e with
  | @Ev X c r =>
      let of_result {A} (r : result A) : option error :=
        match r with Ok _ => None | Err e => Some e end in
      match c in call X return X → option error with
      | homedir_HomeDir => λ _, None
      | flag_Parse => λ _, None
      | clientcmd_BuildConfigFromFlags _ _ => of_result
      | rest_RESTClientFor _ => of_result
      | kubernetes_NewForConfig _ => of_result
      | dynamic_NewForConfig _ => of_result
      | Namespaces_List _ _ => of_result
      | REST_Get_Into _ _ _ _ => of_result
      | Dynamic_List _ _ _ _ => of_result
      | FromUnstructured _ => of_result
      | Namespaces_Create _ _ _ => of_result
      | Deployments_Create _ _ _ _ => of_result
      | Services_Create _ _ _ _ => of_result
      | Services_Delete _ _ _ _ => λ r, r
      | Deployments_Delete _ _ _ _ => λ r, r
      | Namespaces_Delete _ _ _ => λ r, r
      | fmt_Printf _ _ => λ _, None
      end r
  end.

(** The writes a program asks of the cluster, without the client handle. *)
Inductive operation : Type :=
| CreateNamespace (ns : Namespace.t) (opts : CreateOptions.t)
| CreateDeployment (namespace : string) (d : Deployment.t) (opts : CreateOptions.t)
| CreateService (namespace : string) (s : Service.t) (opts : CreateOptions.t)
| DeleteService (namespace name : string) (opts : DeleteOptions.t)
| DeleteDeployment (namespace name : string) (opts : DeleteOptions.t)
| DeleteNamespace (name : string) (opts : DeleteOptions.t).

Definition operation_of (e : event) : option operation :=
  match e with
  | Ev c _ =>
      match c with
      | Namespaces_Create _ ns o => Some (CreateNamespace ns o)
      | Deployments_Create _ n d o => Some (CreateDeployment n d o)
      | Services_Create _ n s o => Some (CreateService n s o)
      | Services_Delete _ n x o => Some (DeleteService n x o)
      | Deployments_Delete _ n x o => Some (DeleteDeployment n x o)
      | Namespaces_Delete _ x o => Some (DeleteNamespace x o)
      | _ => None
      end
  end.

Definition operations (t : trace) : list operation := omap operation_of t.

(** The writes with how each ended. *)
Definition outcomes (t : trace) : list (operation * option error) :=
  omap (λ e, (λ op, (op, failure e)) <$> operation_of e) t.

(** A sequence of steps in which nothing follows a failed one. *)
Fixpoint stops_at_failure {A} (l : list (A * option error)) : Prop :=
  match l with
  | [] => True
  | (_, Some _) :: l' => l' = []
  | (_, None) :: l' => stops_at_failure l'
  end.

Definition is_create (op : operation) : bool :=
  match op with
  | CreateNamespace _ _ | CreateDeployment _ _ _ | CreateService _ _ _ => true
  | _ => false
  end.

(** The list reads a program asks of the cluster. *)
Inductive listing : Type :=
| ListNamespaces (opts : ListOptions.t)
| ListTyped (namespace resource : string) (opts : ListOptions.t)
| ListDynamic (gvr : GroupVersionResource.t) (namespace : string)
    (opts : ListOptions.t).

Definition listing_of (e : event) : option listing :=
  match e with
  | Ev c _ =>
      match c with
      | Namespaces_List _ o => Some (ListNamespaces o)
      | REST_Get_Into _ n r o => Some (ListTyped n r o)
      | Dynamic_List _ g n o => Some (ListDynamic g n o)
      | _ => None
      end
  end.

Definition listings (t : trace) : list listing := omap listing_of t.

(** What went to standard output: each [Printf] with its format and
    arguments. *)
Definition printf_of (e : event) : option (string * list string) :=
  match e with
  | Ev c _ =>
      match c with
      | fmt_Printf f a => Some (f, a)
      | _ => None
      end
  end.

Definition printed (t : trace) : list (string * list string) := omap printf_of t.

(** The (namespace, phase, name) tuples among the printed lines: the lines
    with three arguments. *)
Definition tuple_of (line : string * list string) : option (string * string * string) :=
  match line.2 with
  | [ns; phase; name] => Some (ns, phase, name)
  | _ => None
  end.

Definition tuples (t : trace) : list (string * string * string) :=
  omap tuple_of (printed t).

Definition pod_tuple (d : Pod.t) : string * string * string :=
  (ObjectMeta.Namespace (Pod.ObjectMeta d),
   PodStatus.Phase (Pod.Status d),
   ObjectMeta.Name (Pod.ObjectMeta d)).

(** What each [flag.Parse()] of the run answered. *)
Definition parsed_of (e : event) : option (gmap string string) :=
  match e with
  | @Ev X c r =>
      match c in call X return X → option (gmap string string) with
      | flag_Parse => λ r, Some r
      | _ => λ _, None
      end r
  end.

Definition parsed_flags (t : trace) : list (gmap string string) := omap parsed_of t.

(** The clientsets the run obtained. *)
Definition clientset_of (e : event) : option Clientset :=
  match e with
  | @Ev X c r =>
      match c in call X return X → option Clientset with
      | kubernetes_NewForConfig _ => λ r, match r with Ok cs => Some cs | Err _ => None end
      | _ => λ _, None
      end r
  end.

Definition clientsets (t : trace) : list Clientset := omap clientset_of t.



Definition untyped_of (e : event) : option unstructured :=
  match e with
  | @Ev X c r =>
      match c in call X return X → option unstructured with
      | Dynamic_List _ _ _ _ => λ r, match r with Ok u => Some u | Err _ => None end
      | _ => λ _, None
      end r
  end.

Definition untyped (t : trace) : list unstructured := omap untyped_of t.

Definition converted_of (e : event) : option (unstructured * PodList.t) :=
  match e with
  | @Ev X c r =>
      match c in call X return X → option (unstructured * PodList.t) with
      | FromUnstructured u => λ r, match r with Ok l => Some (u, l) | Err _ => None end
      | _ => λ _, None
      end r
  end.

Definition converted (t : trace) : list (unstructured * PodList.t) :=
  omap converted_of t.

(** The arguments of the line a lister prints for pod [d]. *)
Definition pod_fields (d : Pod.t) : list string :=
  [ObjectMeta.Namespace (Pod.ObjectMeta d);
   PodStatus.Phase (Pod.Status d);
   ObjectMeta.Name (Pod.ObjectMeta d)].

(** The value of [*operate] once [flag.Parse()] answered [parsed]. *)
Definition operate_of (parsed : gmap string string) : string :=
  default "create" (parsed !! "operate").

(** The responses in [t] are the ones [h] gives from [s] on. *)
Fixpoint consistent {S} (h : backend S) (t : trace) (s : S) : Prop :=
  match t with
  | [] => True
  | Ev c r :: t' => r = (h _ c s).1 ∧ consistent h t' (h _ c s).2
  end.

Fixpoint replay {S} (h : backend S) (t : trace) (s : S) : S :=
  match t with
  | [] => s
  | Ev c _ :: t' => replay h t' (h _ c s).2
  end.

(** ** A simulated cluster

    The backend the programs are run against below.  It is not part of the
    repository: it plays the process environment (home directory, command
    line) and an API server that stores namespaces, pods, deployments and
    services.  A list call answers the stored objects of the namespace asked
    for (every namespace when it is empty), cut to [Limit] when that is
    positive; selectors and continuation are not simulated.  A create is
    refused when the name is taken or, for a deployment or a service, when
    its namespace does not exist.  Deleting a namespace removes what it
    holds at once.  [faults] makes chosen calls fail. *)
Module Sim.

Record cluster := {
  home : string;
  command_line : gmap string string;
  host : string;
  namespaces : list Namespace.t;
  pods : list Pod.t;
  deployments : list Deployment.t;
  services : list Service.t;
}.

Definition faults : Type := ∀ X, call X → option error.
Definition no_faults : faults := λ _ _, None.

Definition with_namespaces (l : list Namespace.t) (c : cluster) : cluster :=
  {| home := home c; command_line := command_line c; host := host c;
     namespaces := l; pods := pods c;
     deployments := deployments c; services := services c |}.
Definition with_pods (l : list Pod.t) (c : cluster) : cluster :=
  {| home := home c; command_line := command_line c; host := host c;
     namespaces := namespaces c; pods := l;
     deployments := deployments c; services := services c |}.
Definition with_deployments (l : list Deployment.t) (c : cluster) : cluster :=
  {| home := home c; command_line := command_line c; host := host c;
     namespaces := namespaces c; pods := pods c;
     deployments := l; services := services c |}.
Definition with_services (l : list Service.t) (c : cluster) : cluster :=
  {| home := home c; command_line := command_line c; host := host c;
     namespaces := namespaces c; pods := pods c;
     deployments := deployments c; services := l |}.

Definition limited {A} (n : Z) (l : list A) : list A :=
  if decide (0 < n) then take (Z.to_nat n) l else l.

Definition in_namespace (ns : string) (m : ObjectMeta.t) : bool :=
  bool_decide (ns = "" ∨ ObjectMeta.Namespace m = ns).

Definition named (ns name : string) (m : ObjectMeta.t) : bool :=
  bool_decide (ObjectMeta.Namespace m = ns ∧ ObjectMeta.Name m = name).

Definition namespace_exists (name : string) (c : cluster) : bool :=
  existsb (λ n, named "" name (Namespace.ObjectMeta n)) (namespaces c).

Definition placed (ns : string) (m : ObjectMeta.t) : ObjectMeta.t :=
  {| ObjectMeta.Name := ObjectMeta.Name m; ObjectMeta.Namespace := ns;
     ObjectMeta.Labels := ObjectMeta.Labels m |}.

Definition pods_listed (ns : string) (opts : ListOptions.t) (c : cluster) :
    list Pod.t :=
  limited (ListOptions.Limit opts)
    (filter (λ d, in_namespace ns (Pod.ObjectMeta d)) (pods c)).

(** The untyped form of a pod list, and the converter back. *)
Definition encode_pod (d : Pod.t) : unstructured :=
  UMap [("metadata",
          UMap [("name", UString (ObjectMeta.Name (Pod.ObjectMeta d)));
                ("namespace", UString (ObjectMeta.Namespace (Pod.ObjectMeta d)))]);
        ("status", UMap [("phase", UString (PodStatus.Phase (Pod.Status d)))])].

Definition encode_pods (l : list Pod.t) : unstructured :=
  UMap [("apiVersion", UString "v1"); ("kind", UString "PodList");
        ("items", USlice (encode_pod <$> l))].

Fixpoint assoc (k : string) (fs : list (string * unstructured)) : unstructured :=
  match fs with
  | [] => UNull
  | (k', v) :: fs' => if decide (k' = k) then v else assoc k fs'
  end.

Definition field (k : string) (u : unstructured) : unstructured :=
  match u with
  | UMap fs => assoc k fs
  | _ => UNull
  end.

Definition as_string (u : unstructured) : result string :=
  match u with
  | UNull => Ok ""
  | UString s => Ok s
  | _ => Err "cannot convert to string"
  end.

Definition decode_pod (u : unstructured) : result Pod.t :=
  match as_string (field "name" (field "metadata" u)),
        as_string (field "namespace" (field "metadata" u)),
        as_string (field "phase" (field "status" u)) with
  | Ok name, Ok ns, Ok phase =>
      Ok {| Pod.ObjectMeta :=
              {| ObjectMeta.Name := name; ObjectMeta.Namespace := ns;
                 ObjectMeta.Labels := ∅ |};
            Pod.Status := {| PodStatus.Phase := phase |} |}
  | Err e, _, _ | _, Err e, _ | _, _, Err e => Err e
  end.

Fixpoint decode_all (l : list unstructured) : result (list Pod.t) :=
  match l with
  | [] => Ok []
  | u :: l' =>
      match decode_pod u, decode_all l' with
      | Ok d, Ok ds => Ok (d :: ds)
      | Err e, _ | _, Err e => Err e
      end
  end.

Definition decode_pods (u : unstructured) : result PodList.t :=
  match field "items" u with
  | UNull => Ok {| PodList.Items := [] |}
  | USlice l =>
      match decode_all l with
      | Ok ds => Ok {| PodList.Items := ds |}
      | Err e => Err e
      end
  | _ => Err "cannot convert to slice"
  end.

Definition answer {A} (f : option error) (a : result A) : result A :=
  match f with
  | Some e => Err e
  | None => a
  end.

Definition step (f : faults) : backend cluster := λ X c,
  let fault := f X c in
  match c in call X return cluster → X * cluster with
  | homedir_HomeDir => λ w, (home w, w)
  | flag_Parse => λ w, (command_line w, w)
  | clientcmd_BuildConfigFromFlags m k => λ w,
      (answer (fault)
         (Ok {| Config.Host := host w; Config.APIPath := "";
                Config.GroupVersion := None;
                Config.NegotiatedSerializer := None |}), w)
  | rest_RESTClientFor cfg => λ w, (answer (fault) (Ok (mkRESTClient cfg)), w)
  | kubernetes_NewForConfig cfg => λ w, (answer (fault) (Ok (mkClientset cfg)), w)
  | dynamic_NewForConfig cfg => λ w, (answer (fault) (Ok (mkDynamicClient cfg)), w)
  | Namespaces_List _ opts => λ w,
      (answer (fault) (Ok (limited (ListOptions.Limit opts) (namespaces w))), w)
  | REST_Get_Into _ ns r opts => λ w,
      (answer (fault)
         (if decide (r = "pods")
          then Ok {| PodList.Items := pods_listed ns opts w |}
          else Err "the server could not find the requested resource"), w)
  | Dynamic_List _ gvr ns opts => λ w,
      (answer (fault)
         (if decide (gvr = DynamicLister.gvr)
          then Ok (encode_pods (pods_listed ns opts w))
          else Err "the server could not find the requested resource"), w)
  | FromUnstructured u => λ w, (answer (fault) (decode_pods u), w)
  | Namespaces_Create _ ns opts => λ w,
      match fault with
      | Some e => (Err e, w)
      | None =>
          if namespace_exists (ObjectMeta.Name (Namespace.ObjectMeta ns)) w
          then (Err "already exists", w)
          else (Ok ns,
                if decide (CreateOptions.DryRun opts = [])
                then with_namespaces (namespaces w ++ [ns]) w else w)
      end
  | Deployments_Create _ ns d opts => λ w,
      match fault with
      | Some e => (Err e, w)
      | None =>
          if negb (namespace_exists ns w) then (Err "namespace not found", w)
          else if existsb (λ x, named ns (ObjectMeta.Name (Deployment.ObjectMeta d))
                                  (Deployment.ObjectMeta x)) (deployments w)
          then (Err "already exists", w)
          else
            let d' := {| Deployment.ObjectMeta := placed ns (Deployment.ObjectMeta d);
                         Deployment.Spec := Deployment.Spec d |} in
            (Ok d',
             if decide (CreateOptions.DryRun opts = [])
             then with_deployments (deployments w ++ [d']) w else w)
      end
  | Services_Create _ ns s opts => λ w,
      match fault with
      | Some e => (Err e, w)
      | None =>
          if negb (namespace_exists ns w) then (Err "namespace not found", w)
          else if existsb (λ x, named ns (ObjectMeta.Name (Service.ObjectMeta s))
                                  (Service.ObjectMeta x)) (services w)
          then (Err "already exists", w)
          else
            let s' := {| Service.ObjectMeta := placed ns (Service.ObjectMeta s);
                         Service.Spec := Service.Spec s |} in
            (Ok s',
             if decide (CreateOptions.DryRun opts = [])
             then with_services (services w ++ [s']) w else w)
      end
  | Services_Delete _ ns name opts => λ w,
      match fault with
      | Some e => (Some e, w)
      | None =>
          if existsb (λ x, named ns name (Service.ObjectMeta x)) (services w)
          then (None,
                if decide (DeleteOptions.DryRun opts = [])
                then with_services
                       (filter (λ x, named ns name (Service.ObjectMeta x) = false)
                          (services w)) w
                else w)
          else (Some "not found", w)
      end
  | Deployments_Delete _ ns name opts => λ w,
      match fault with
      | Some e => (Some e, w)
      | None =>
          if existsb (λ x, named ns name (Deployment.ObjectMeta x)) (deployments w)
          then (None,
                if decide (DeleteOptions.DryRun opts = [])
                then with_deployments
                       (filter (λ x, named ns name (Deployment.ObjectMeta x) = false)
                          (deployments w)) w
                else w)
          else (Some "not found", w)
      end
  | Namespaces_Delete _ name opts => λ w,
      match fault with
      | Some e => (Some e, w)
      | None =>
          if namespace_exists name w
          then (None,
                if decide (DeleteOptions.DryRun opts = [])
                then
                  let outside (m : ObjectMeta.t) : Prop :=
                    ObjectMeta.Namespace m ≠ name in
                  with_namespaces
                    (filter (λ n, named "" name (Namespace.ObjectMeta n) = false)
                       (namespaces w))
                    (with_pods (filter (λ x, outside (Pod.ObjectMeta x)) (pods w))
                    (with_deployments
                       (filter (λ x, outside (Deployment.ObjectMeta x)) (deployments w))
                    (with_services
                       (filter (λ x, outside (Service.ObjectMeta x)) (services w)) w)))
                else w)
          else (Some "not found", w)
      end
  | fmt_Printf _ _ => λ w, (tt, w)
  end.

(** A cluster with nothing in it, and the command line empty. *)
Definition empty : cluster :=
  {| home := "/root"; command_line := ∅; host := "https://127.0.0.1:6443";
     namespaces := []; pods := []; deployments := []; services := [] |}.

Definition pod (ns name phase : string) : Pod.t :=
  {| Pod.ObjectMeta := {| ObjectMeta.Name := name; ObjectMeta.Namespace := ns;
                          ObjectMeta.Labels := ∅ |};
     Pod.Status := {| PodStatus.Phase := phase |} |}.

(** Two namespaces with one running pod each. *)
Definition two_namespaces : cluster :=
  {| home := "/root"; command_line := ∅; host := "https://127.0.0.1:6443";
     namespaces := [ {| Namespace.ObjectMeta := meta "default" |};
                     {| Namespace.ObjectMeta := meta "kube-system" |} ];
     pods := [ pod "default" "web" "Running";
               pod "kube-system" "coredns" "Running" ];
     deployments := []; services := [] |}.

(** Only [kube-system] holds pods. *)
Definition system_only : cluster :=
  {| home := "/root"; command_line := ∅; host := "https://127.0.0.1:6443";
     namespaces := [ {| Namespace.ObjectMeta := meta "default" |};
                     {| Namespace.ObjectMeta := meta "kube-system" |} ];
     pods := [ pod "kube-system" "coredns" "Running";
               pod "kube-system" "etcd" "Pending" ];
     deployments := []; services := [] |}.

Definition with_command_line (a : gmap string string) (c : cluster) : cluster :=
  {| home := home c; command_line := a; host := host c;
     namespaces := namespaces c; pods := pods c;
     deployments := deployments c; services := services c |}.

(** The server refuses every deployment. *)
Definition reject_deployments : faults := λ X c,
  match c with
  | Deployments_Create _ _ _ _ => Some "admission webhook denied the request"
  | _ => None
  end.

(** Listing the pods of [kube-system] through the REST client fails. *)
Definition fail_kube_system : faults := λ X c,
  match c with
  | REST_Get_Into _ "kube-system" _ _ => Some "the server is currently unable to handle the request"
  | _ => None
  end.

End Sim.

(** ** What the provisioner is expected to ask of the cluster *)

Definition create_sequence (v : variant) : list operation :=
  [ CreateNamespace Provisioner.namespace CreateOptions_zero;
    CreateDeployment Provisioner.NAMESPACE (provisioner_deployment v) CreateOptions_zero;
    CreateService Provisioner.NAMESPACE Provisioner.service CreateOptions_zero ].

Definition clean_sequence : list operation :=
  [ DeleteService Provisioner.NAMESPACE Provisioner.SERVICE_NAME DeleteOptions_zero;
    DeleteDeployment Provisioner.NAMESPACE Provisioner.DEPLOYMENT_NAME DeleteOptions_zero;
    DeleteNamespace Provisioner.NAMESPACE DeleteOptions_zero ].

(** Every deployment a run of provisioner [v] submits asks for two replicas. *)
Definition submits_two_replicas (v : variant) : Prop :=
  ∀ t o ns d opts,
    exec (provisioner v) t o →
    CreateDeployment ns d opts ∈ operations t →
    DeploymentSpec.Replicas (Deployment.Spec d) = Some 2.

(** The errors of the calls of a trace, in order. *)
Definition failures (t : trace) : list error := omap failure t.

(** A trace in which nothing follows a failed call. *)
Fixpoint halts_on_failure (t : trace) : Prop :=
  match t with
  | [] => True
  | e :: t' =>
      match failure e with
      | Some _ => t' = []
      | None => halts_on_failure t'
      end
  end.

(** The object a successful create left in the simulated cluster. *)
Definition present (op : operation) (w : Sim.cluster) : Prop :=
  match op with
  | CreateNamespace ns opts =>
      CreateOptions.DryRun opts = [] → ns ∈ Sim.namespaces w
  | CreateDeployment n d opts =>
      CreateOptions.DryRun opts = [] →
      {| Deployment.ObjectMeta := Sim.placed n (Deployment.ObjectMeta d);
         Deployment.Spec := Deployment.Spec d |} ∈ Sim.deployments w
  | CreateService n x opts =>
      CreateOptions.DryRun opts = [] →
      {| Service.ObjectMeta := Sim.placed n (Service.ObjectMeta x);
         Service.Spec := Service.Spec x |} ∈ Sim.services w
  | _ => True
  end.

(** What the simulated converter recovers of a pod: the three fields of
    its untyped form. *)
Definition recovered (d : Pod.t) : Pod.t :=
  Sim.pod (ObjectMeta.Namespace (Pod.ObjectMeta d))
    (ObjectMeta.Name (Pod.ObjectMeta d)) (PodStatus.Phase (Pod.Status d)).

(** The rows the two listers are expected to print against the simulated
    cluster [c]. *)
Definition dynamic_rows (c : Sim.cluster) : list (string * string * string) :=
  pod_tuple <$> Sim.pods_listed "kube-system" (ListOptions_limit 100) c.

Definition typed_rows (c : Sim.cluster) : list (string * string * string) :=
  Sim.namespaces c ≫= λ ns,
    pod_tuple <$> Sim.pods_listed (ObjectMeta.Name (Namespace.ObjectMeta ns))
                    (ListOptions_limit 500) c.

(** ** More readings of a trace and of a run *)

(** The five programs of the two source files. *)
Definition programs : list (prog unit) :=
  [ DynamicLister.main; RestLister.main; RestListerAnnotated.main;
    Provisioner.main; ProvisionerAnnotated.main ].

(** The value of [*kubeconfig] once the home directory is [home] and
    [flag.Parse()] answered [parsed]. *)
Definition kubeconfig_path (home : string) (parsed : gmap string string) : string :=
  default (if decide (home ≠ "")
           then filepath_Join [home; ".kube"; "config"] else "")
          (parsed !! "kubeconfig").

(** The home directories a run was answered and the paths it loaded its
    configuration from. *)
Definition home_of (e : event) : option string :=
  match e with
  | @Ev X c r =>
      match c in call X return X → option string with
      | homedir_HomeDir => λ r, Some r
      | _ => λ _, None
      end r
  end.

Definition homes (t : trace) : list string := omap home_of t.

Definition kubeconfig_of (e : event) : option string :=
  match e with
  | Ev c _ =>
      match c with
      | clientcmd_BuildConfigFromFlags _ path => Some path
      | _ => None
      end
  end.

Definition kubeconfigs (t : trace) : list string := omap kubeconfig_of t.

(** The same cluster reached by a user whose home directory is [h]. *)
Definition at_home (h : string) (c : Sim.cluster) : Sim.cluster :=
  {| Sim.home := h; Sim.command_line := Sim.command_line c;
     Sim.host := Sim.host c; Sim.namespaces := Sim.namespaces c;
     Sim.pods := Sim.pods c; Sim.deployments := Sim.deployments c;
     Sim.services := Sim.services c |}.

(** The line the provisioner prints first. *)
Definition operate_line (parsed : gmap string string) : string * list string :=
  ("operate is %v" +:+ NL, [operate_of parsed]).

(** The line a create that returned without error is confirmed with: the
    name is the one of the object the server returned. *)
Definition confirmation_of (e : event) : option (string * list string) :=
  match e with
  | @Ev X c r =>
      match c in call X return X → option (string * list string) with
      | Namespaces_Create _ _ _ => λ r,
          match r with
          | Ok x => Some ("Create namespace %s " +:+ NL,
                          [ObjectMeta.Name (Namespace.ObjectMeta x)])
          | Err _ => None
          end
      | Deployments_Create _ _ _ _ => λ r,
          match r with
          | Ok x => Some ("Create deployment %s " +:+ NL,
                          [ObjectMeta.Name (Deployment.ObjectMeta x)])
          | Err _ => None
          end
      | Services_Create _ _ _ _ => λ r,
          match r with
          | Ok x => Some ("Create service %s " +:+ NL,
                          [ObjectMeta.Name (Service.ObjectMeta x)])
          | Err _ => None
          end
      | _ => λ _, None
      end r
  end.

Definition confirmations (t : trace) : list (string * list string) :=
  omap confirmation_of t.

(** The namespace lists and the typed pod lists the run was answered. *)
Definition namespaces_answer_of (e : event) : option (list Namespace.t) :=
  match e with
  | @Ev X c r =>
      match c in call X return X → option (list Namespace.t) with
      | Namespaces_List _ _ => λ r, match r with Ok l => Some l | Err _ => None end
      | _ => λ _, None
      end r
  end.

Definition namespaces_answers (t : trace) : list (list Namespace.t) :=
  omap namespaces_answer_of t.

Definition typed_answer_of (e : event) : option PodList.t :=
  match e with
  | @Ev X c r =>
      match c in call X return X → option PodList.t with
      | REST_Get_Into _ _ _ _ => λ r, match r with Ok l => Some l | Err _ => None end
      | _ => λ _, None
      end r
  end.

Definition typed_answers (t : trace) : list PodList.t := omap typed_answer_of t.

(** The list call the typed REST listers make for one namespace. *)
Definition pods_of_namespace (ns : Namespace.t) : listing :=
  ListTyped (ObjectMeta.Name (Namespace.ObjectMeta ns)) "pods" (ListOptions_limit 500).

Definition rest_header (v : variant) : string :=
  match v with
  | Plain => RestLister.header
  | Annotated => RestListerAnnotated.header
  end.

(** The trace of the loop that prints the rows of a pod list. *)
Definition rows_trace (row : string) (l : list Pod.t) : trace :=
  (λ d, Ev (fmt_Printf row (pod_fields d)) tt) <$> l.

(** The lines of the rows of the pod lists [ls], in order. *)
Definition row_lines (row : string) (ls : list PodList.t) :
    list (string * list string) :=
  ls ≫= λ pl, (λ d, (row, pod_fields d)) <$> PodList.Items pl.

(** Whether the simulated cluster holds a deployment, a service of that
    name in that namespace. *)
Definition deployment_exists (ns name : string) (c : Sim.cluster) : bool :=
  existsb (λ x, Sim.named ns name (Deployment.ObjectMeta x)) (Sim.deployments c).

Definition service_exists (ns name : string) (c : Sim.cluster) : bool :=
  existsb (λ x, Sim.named ns name (Service.ObjectMeta x)) (Sim.services c).

(** The three programs that only list. *)
Definition listers : list (prog unit) :=
  [ DynamicLister.main; RestLister.main; RestListerAnnotated.main ].

(** The deployment and the service as the simulated cluster stores them,
    and the cluster after the three creates. *)
Definition stored_deployment (v : variant) : Deployment.t :=
  {| Deployment.ObjectMeta :=
       Sim.placed Provisioner.NAMESPACE (Deployment.ObjectMeta (provisioner_deployment v));
     Deployment.Spec := Deployment.Spec (provisioner_deployment v) |}.

Definition stored_service : Service.t :=
  {| Service.ObjectMeta :=
       Sim.placed Provisioner.NAMESPACE (Service.ObjectMeta Provisioner.service);
     Service.Spec := Service.Spec Provisioner.service |}.

Definition provisioned (v : variant) (c : Sim.cluster) : Sim.cluster :=
  Sim.with_services (Sim.services c ++ [stored_service])
    (Sim.with_deployments (Sim.deployments c ++ [stored_deployment v])
       (Sim.with_namespaces (Sim.namespaces c ++ [Provisioner.namespace]) c)).

(** Nothing of namespace [name] is left in the simulated cluster. *)
Definition cleared (name : string) (w : Sim.cluster) : Prop :=
  Sim.namespace_exists name w = false
  ∧ (∀ x, x ∈ Sim.pods w → ObjectMeta.Namespace (Pod.ObjectMeta x) ≠ name)
  ∧ (∀ x, x ∈ Sim.deployments w →
       ObjectMeta.Namespace (Deployment.ObjectMeta x) ≠ name)
  ∧ (∀ x, x ∈ Sim.services w → ObjectMeta.Namespace (Service.ObjectMeta x) ≠ name).

(** The simulated cluster without namespace [name] and what it holds. *)
Definition without_namespace (name : string) (w : Sim.cluster) : Sim.cluster :=
  {| Sim.home := Sim.home w;
     Sim.command_line := Sim.command_line w;
     Sim.host := Sim.host w;
     Sim.namespaces :=
       filter (λ n, Sim.named "" name (Namespace.ObjectMeta n) = false)
         (Sim.namespaces w);
     Sim.pods :=
       filter (λ x, ObjectMeta.Namespace (Pod.ObjectMeta x) ≠ name) (Sim.pods w);
     Sim.deployments :=
       filter (λ x, ObjectMeta.Namespace (Deployment.ObjectMeta x) ≠ name)
         (Sim.deployments w);
     Sim.services :=
       filter (λ x, ObjectMeta.Namespace (Service.ObjectMeta x) ≠ name)
         (Sim.services w) |}.

(** What a write is addressed to: the kind of object, its namespace (empty
    for a namespace) and its name. *)
Inductive kind : Type := NamespaceKind | DeploymentKind | ServiceKind.

Definition target_of (op : operation) : kind * string * string :=
  match op with
  | CreateNamespace ns _ =>
      (NamespaceKind, "", ObjectMeta.Name (Namespace.ObjectMeta ns))
  | CreateDeployment n d _ =>
      (DeploymentKind, n, ObjectMeta.Name (Deployment.ObjectMeta d))
  | CreateService n x _ =>
      (ServiceKind, n, ObjectMeta.Name (Service.ObjectMeta x))
  | DeleteService n x _ => (ServiceKind, n, x)
  | DeleteDeployment n x _ => (DeploymentKind, n, x)
  | DeleteNamespace x _ => (NamespaceKind, "", x)
  end.

Definition targets (t : trace) : list (kind * string * string) :=
  target_of <$> operations t.

(** ** src/unnamed/part_000: the discovery program

    It calls library entry points the other programs do not use, so it has
    its own calls and its own programs over them, built the same way.
    [ServerGroupsAndResources] answers the groups and the resource lists
    together; [schema_ParseGroupVersion] is the library's parser of
    group-version strings.  A [Printf] argument is kept as the value
    printed. *)
Module Discovery.

Module APIGroup.
Record t := { Name : string }.
End APIGroup.

Module APIResource.
Record t := { Name : string }.
End APIResource.

Module APIResourceList.
Record t := { GroupVersion : string; APIResources : list APIResource.t }.
End APIResourceList.

Inductive DiscoveryClient := mkDiscoveryClient (c : Config.t).

Inductive arg : Type :=
| AString (s : string)
| AGroups (l : list APIGroup.t)
| AGroupVersion (gv : GroupVersion.t).

Inductive call : Type → Type :=
| homedir_HomeDir : call string
| flag_Parse : call (gmap string string)
| clientcmd_BuildConfigFromFlags (masterUrl kubeconfigPath : string) :
    call (result Config.t)
| discovery_NewDiscoveryClientForConfig (config : Config.t) :
    call (result DiscoveryClient)
| ServerGroupsAndResources (dc : DiscoveryClient) :
    call (result (list APIGroup.t * list APIResourceList.t))
| schema_ParseGroupVersion (gv : string) : call (result GroupVersion.t)
| fmt_Printf (format : string) (args : list arg) : call unit
| fmt_Println (args : list arg) : call unit.

Inductive prog (A : Type) : Type :=
| Ret (a : A)
| Panic (v : string)
| Vis {X : Type} (c : call X) (k : X → prog A).
Arguments Ret {A} a.
Arguments Panic {A} v.
Arguments Vis {A X} c k.

Fixpoint bind {A B} (p : prog A) (f : A → prog B) : prog B :=
  match p with
  | Ret a => f a
  | Panic v => Panic v
  | Vis c k => Vis c (λ r, bind (k r) f)
  end.

Definition perform {X} (c : call X) : prog X := Vis c Ret.

Declare Scope discovery_scope.
Notation "x <- p ;; q" := (bind p (λ x, q))
  (at level 100, p at next level, right associativity) : discovery_scope.
Notation "p ;; q" := (bind p (λ _, q))
  (at level 100, right associativity) : discovery_scope.
#[local] Open Scope discovery_scope.

Definition must {A} (c : call (result A)) : prog A :=
  r <- perform c ;;
  match r with
  | Ok a => Ret a
  | Err e => Panic e
  end.

(** [for _, x := range l { body }] *)
Fixpoint range {A} (l : list A) (body : A → prog unit) : prog unit :=
  match l with
  | [] => Ret tt
  | x :: l' => body x ;; range l' body
  end.

Inductive event : Type :=
| Ev {X : Type} (c : call X) (r : X).

Fixpoint exec {A} (p : prog A) (t : list event) (o : outcome A) : Prop :=
  match p with
  | Ret a => t = [] ∧ o = Done a
  | Panic v => t = [] ∧ o = Panicked v
  | Vis c k => ∃ r t', t = Ev c r :: t' ∧ exec (k r) t' o
  end.

(** A run against an environment given by what each call answers. *)
Definition oracle : Type := ∀ X, call X → X.

Fixpoint run {A} (h : oracle) (p : prog A) : outcome A * list event :=
  match p with
  | Ret a => (Done a, [])
  | Panic v => (Panicked v, [])
  | Vis c k =>
      let r := h _ c in
      let rest := run h (k r) in
      (rest.1, Ev c r :: rest.2)
  end.

Definition groups_line : string :=
  "APIGroup:" +:+ NL +:+ NL +:+ " %v" +:+ NL +:+ NL +:+ NL +:+ NL.
Definition separator : string :=
  "************************************************************".
Definition gv_line : string :=
  "GV string [%v]" +:+ NL +:+ "GV struct [%#v]" +:+ NL +:+ "resources:"
  +:+ NL +:+ NL.
Definition name_line : string := "%v" +:+ NL.

(** The body of [for _, singleAPIResourceList := range APIResourceListSlice]. *)
Definition each_list (singleAPIResourceList : APIResourceList.t) : prog unit :=
  let groupVersionStr := APIResourceList.GroupVersion singleAPIResourceList in
  gv <- must (schema_ParseGroupVersion groupVersionStr) ;;
  perform (fmt_Println [AString separator]) ;;
  perform (fmt_Printf gv_line [AString groupVersionStr; AGroupVersion gv]) ;;
  range (APIResourceList.APIResources singleAPIResourceList)
    (λ singleAPIResource,
       perform (fmt_Printf name_line
                  [AString (APIResource.Name singleAPIResource)])).

Definition main : prog unit :=
  home <- perform homedir_HomeDir ;;
  let kubeconfig :=
    if decide (home ≠ "")
    then flag_String "kubeconfig" (filepath_Join [home; ".kube"; "config"])
           "(option) absolute path to the kubeconfig file"
    else flag_String "kubeconfig" "" "absolute path to the kubeconfig file" in
  parsed <- perform flag_Parse ;;
  config <- must (clientcmd_BuildConfigFromFlags "" (deref parsed kubeconfig)) ;;
  discoveryClient <- must (discovery_NewDiscoveryClientForConfig config) ;;
  found <- must (ServerGroupsAndResources discoveryClient) ;;
  let APIGroup := found.1 in
  let APIResourceListSlice := found.2 in
  perform (fmt_Printf groups_line [AGroups APIGroup]) ;;
  range APIResourceListSlice each_list.

(** What went to standard output, [Println] as a print without format. *)
Definition printed_of (e : event) : option (string * list arg) :=
  match e with
  | Ev c _ =>
      match c with
      | fmt_Printf f a => Some (f, a)
      | fmt_Println a => Some ("", a)
      | _ => None
      end
  end.

Definition printed (t : list event) : list (string * list arg) :=
  omap printed_of t.

(** What the discovery call answered, and what the parser was asked and
    answered. *)
Definition found_of (e : event) :
    option (list APIGroup.t * list APIResourceList.t) :=
  match e with
  | @Ev X c r =>
      match c in call X
            return X → option (list APIGroup.t * list APIResourceList.t) with
      | ServerGroupsAndResources _ => λ r,
          match r with Ok x => Some x | Err _ => None end
      | _ => λ _, None
      end r
  end.

Definition found (t : list event) :
    list (list APIGroup.t * list APIResourceList.t) :=
  omap found_of t.

Definition parse_of (e : event) : option (string * result GroupVersion.t) :=
  match e with
  | @Ev X c r =>
      match c in call X return X → option (string * result GroupVersion.t) with
      | schema_ParseGroupVersion s => λ r, Some (s, r)
      | _ => λ _, None
      end r
  end.

Definition parses (t : list event) : list (string * result GroupVersion.t) :=
  omap parse_of t.

(** The lines of one resource list whose group-version parsed to [gv]. *)
Definition block (l : APIResourceList.t) (gv : GroupVersion.t) :
    list (string * list arg) :=
  ("", [AString separator])
  :: (gv_line, [AString (APIResourceList.GroupVersion l); AGroupVersion gv])
  :: ((λ r, (name_line, [AString (APIResource.Name r)]))
        <$> APIResourceList.APIResources l).

(** The lines expected for the resource lists [ls] when the parser is the
    function [parse]: the blocks up to the first group-version that does
    not parse; and how the run is expected to end. *)
Fixpoint blocks (parse : string → result GroupVersion.t)
    (ls : list APIResourceList.t) : list (string * list arg) :=
  match ls with
  | [] => []
  | l :: ls' =>
      match parse (APIResourceList.GroupVersion l) with
      | Ok gv => block l gv ++ blocks parse ls'
      | Err _ => []
      end
  end.

Fixpoint ending (parse : string → result GroupVersion.t)
    (ls : list APIResourceList.t) : outcome unit :=
  match ls with
  | [] => Done tt
  | l :: ls' =>
      match parse (APIResourceList.GroupVersion l) with
      | Ok _ => ending parse ls'
      | Err e => Panicked e
      end
  end.

End Discovery.

(** A sample environment for the discovery program: the core group with
    pods and the apps group with deployments, and a third list whose
    group-version has one slash too many for the parser. *)
Definition sample_parse (s : string) : result GroupVersion.t :=
  if decide (s = "v1")
  then Ok {| GroupVersion.Group := ""; GroupVersion.Version := "v1" |}
  else if decide (s = "apps/v1")
  then Ok {| GroupVersion.Group := "apps"; GroupVersion.Version := "v1" |}
  else Err ("unexpected GroupVersion string: " +:+ s).

Definition sample_groups : list Discovery.APIGroup.t :=
  [ {| Discovery.APIGroup.Name := "" |}; {| Discovery.APIGroup.Name := "apps" |} ].

Definition sample_lists : list Discovery.APIResourceList.t :=
  [ {| Discovery.APIResourceList.GroupVersion := "v1";
       Discovery.APIResourceList.APIResources :=
         [ {| Discovery.APIResource.Name := "pods" |} ] |};
    {| Discovery.APIResourceList.GroupVersion := "apps/v1";
       Discovery.APIResourceList.APIResources :=
         [ {| Discovery.APIResource.Name := "deployments" |} ] |};
    {| Discovery.APIResourceList.GroupVersion := "a/b/c";
       Discovery.APIResourceList.APIResources :=
         [ {| Discovery.APIResource.Name := "widgets" |} ] |} ].

Definition sample_oracle (lists : list Discovery.APIResourceList.t) :
    Discovery.oracle := λ X c,
  match c in Discovery.call X return X with
  | Discovery.homedir_HomeDir => "/root"
  | Discovery.flag_Parse => ∅
  | Discovery.clientcmd_BuildConfigFromFlags _ _ =>
      Ok {| Config.Host := "https://127.0.0.1:6443"; Config.APIPath := "";
            Config.GroupVersion := None; Config.NegotiatedSerializer := None |}
  | Discovery.discovery_NewDiscoveryClientForConfig cfg =>
      Ok (Discovery.mkDiscoveryClient cfg)
  | Discovery.ServerGroupsAndResources _ => Ok (sample_groups, lists)
  | Discovery.schema_ParseGroupVersion s => sample_parse s
  | Discovery.fmt_Printf _ _ => tt
  | Discovery.fmt_Println _ => tt
  end.

(** An environment in which the discovery call itself fails. *)
Definition unreachable_oracle : Discovery.oracle := λ X c,
  match c in Discovery.call X return X with
  | Discovery.ServerGroupsAndResources _ =>
      Err "the server is currently unable to handle the request"
  | c' => sample_oracle [] _ c'
  end.

(** * Properties *)

Arguments filepath_Join : simpl never.
Arguments deref : simpl never.
Arguments flag_String : simpl never.

(** ** Programs and their traces *)

Lemma run_exec {S A} (h : backend S) (p : prog A) (s : S) :
  exec p (events (run h p s)) (final (run h p s)).
Proof.
  revert s. induction p as [a|v|X c k IH]; intros s; simpl; [done..|].
  destruct (h X c s) as [r s1]. simpl. eauto.
Qed.

Lemma exec_bind {A B} (p : prog A) (f : A → prog B) t o :
  exec (bind p f) t o ↔
    (∃ a t1 t2, exec p t1 (Done a) ∧ exec (f a) t2 o ∧ t = t1 ++ t2)
    ∨ (∃ v, exec p t (Panicked v) ∧ o = Panicked v).
Proof.
  revert t. induction p as [a|v|X c k IH]; intros t; simpl.
  - split.
    + intros Hf. left. by exists a, [], t.
    + intros [(a' & t1 & t2 & [-> Ha] & Hf & ->)|(v & [_ Hv] & _)];
        [by simplify_eq|discriminate].
  - split.
    + intros [-> ->]. right. by exists v.
    + intros [(a' & t1 & t2 & [_ Ha] & _)|(v' & [-> Hv] & ->)];
        [discriminate|by simplify_eq].
  - split.
    + intros (r & t' & -> & Hk).
      apply IH in Hk as [(a & t1 & t2 & H1 & H2 & ->)|(v & H1 & ->)].
      * left. exists a, (Ev c r :: t1), t2. eauto 10.
      * right. exists v. eauto 10.
    + intros [(a & t1 & t2 & (r & t' & -> & H1) & H2 & ->)
             |(v & (r & t' & -> & H1) & ->)].
      * exists r, (t' ++ t2). split; [done|]. apply IH. left. eauto 10.
      * exists r, t'. split; [done|]. apply IH. right. eauto.
Qed.

(** ** Backends and their traces *)

Lemma run_consistent {S A} (h : backend S) (p : prog A) (s : S) :
  consistent h (events (run h p s)) s.
Proof.
  revert s. induction p as [a|v|X c k IH]; intros s; simpl; [done..|].
  destruct (h X c s) as [r s1] eqn:E. simpl. rewrite E. simpl. auto.
Qed.

Lemma run_replay {S A} (h : backend S) (p : prog A) (s : S) :
  state (run h p s) = replay h (events (run h p s)) s.
Proof.
  revert s. induction p as [a|v|X c k IH]; intros s; simpl; [done..|].
  destruct (h X c s) as [r s1] eqn:E. simpl. rewrite E. simpl. auto.
Qed.

(** ** The provisioner *)

(** Unfolds [exec] along a program: one case per way the calls can answer. *)
Ltac exec_inv H :=
  repeat (cbn in H;
    match type of H with
    | ∃ r t', _ = _ ∧ _ => destruct H as (? & ? & -> & H)
    | _ = [] ∧ _ = _ => destruct H as [-> ->]
    | context [match ?r with Ok _ => _ | Err _ => _ end] => destruct r
    | context [match ?r with Some _ => _ | None => _ end] => destruct r
    | exec (if decide ?P then _ else _) _ _ => destruct (decide P)
    end).

Lemma deref_operate parsed usage :
  deref parsed (flag_String "operate" "create" usage) = operate_of parsed.
Proof. reflexivity. Qed.

Ltac provisioner_cases H :=
  match type of H with
  | exec (provisioner ?v) _ _ =>
      destruct v;
      unfold provisioner, Provisioner.main, ProvisionerAnnotated.main in H
  end;
  exec_inv H; rewrite ?deref_operate in *.

(** Every run starts by asking for the home directory and parsing the
    flags, and never parses them again. *)
Lemma provisioner_startup v t o :
  exec (provisioner v) t o →
  ∃ home parsed t',
    t = Ev homedir_HomeDir home :: Ev flag_Parse parsed :: t'
    ∧ parsed_flags t' = []
    ∧ parsed_flags t = [parsed].
Proof. intros H. provisioner_cases H; eexists _, _, _; done. Qed.

(** All runs in create mode. *)
Lemma create_mode v t o parsed :
  exec (provisioner v) t o → parsed ∈ parsed_flags t →
  operate_of parsed ≠ "clean" →
  operations t `prefix_of` create_sequence v
  ∧ stops_at_failure (outcomes t)
  ∧ (o = Done tt → operations t = create_sequence v)
  ∧ (clientsets t ≠ [] → operations t ≠ [])
  ∧ (∀ op m, (op, Some m) ∈ outcomes t → o = Panicked m).
Proof.
  intros H Hp Hop. provisioner_cases H; cbn in Hp;
    apply list_elem_of_singleton in Hp as ->; try congruence.
  all: cbn; repeat split; try done; try (by eexists).
  all: intros op m Hin; repeat (apply elem_of_cons in Hin as [Hin|Hin]);
    try (by apply elem_of_nil in Hin); congruence.
Qed.

(** All runs in clean mode. *)
Lemma clean_mode v t o parsed :
  exec (provisioner v) t o → parsed ∈ parsed_flags t →
  operate_of parsed = "clean" →
  operations t `prefix_of` clean_sequence
  ∧ stops_at_failure (outcomes t)
  ∧ (o = Done tt → operations t = clean_sequence)
  ∧ (clientsets t ≠ [] → operations t ≠ [])
  ∧ (∀ op m, (op, Some m) ∈ outcomes t → o = Panicked m).
Proof.
  intros H Hp Hop. provisioner_cases H; cbn in Hp;
    apply list_elem_of_singleton in Hp as ->; try congruence.
  all: cbn; repeat split; try done; try (by eexists).
  all: intros op m Hin; repeat (apply elem_of_cons in Hin as [Hin|Hin]);
    try (by apply elem_of_nil in Hin); congruence.
Qed.

(** Whatever the mode, a run asks only for steps of one of the two
    sequences. *)
Lemma provisioner_operations v t o op :
  exec (provisioner v) t o → op ∈ operations t →
  op ∈ clean_sequence ∨ op ∈ create_sequence v.
Proof.
  intros H Hin.
  destruct (provisioner_startup _ _ _ H) as (home & parsed & t' & _ & _ & Hp).
  assert (parsed ∈ parsed_flags t) as Hp' by (rewrite Hp; apply list_elem_of_here).
  destruct (decide (operate_of parsed = "clean")) as [Hop|Hop].
  - left. destruct (clean_mode _ _ _ _ H Hp' Hop) as ([k ->] & _).
    apply elem_of_app. by left.
  - right. destruct (create_mode _ _ _ _ H Hp' Hop) as ([k ->] & _).
    apply elem_of_app. by left.
Qed.

(** Proves [exec p t o] for a closed program and the trace of a concrete run
    by evaluating both along the program. *)
Ltac exec_concrete :=
  repeat (eexists; eexists; split; [reflexivity|]); split; reflexivity.




(** Every run parses the flags once; a run in which no call fails ends
    normally after all three writes of its mode. *)
Lemma provisioner_complete v t o :
  exec (provisioner v) t o →
  ∃ parsed,
    parsed_flags t = [parsed]
    ∧ (failures t = [] →
       o = Done tt
       ∧ operations t
         = if decide (operate_of parsed = "clean")
           then clean_sequence else create_sequence v).
Proof.
  intros H. provisioner_cases H.
  all: eexists; split; [reflexivity|]; intros Hf; try discriminate Hf.
  all: repeat match goal with u : () |- _ => destruct u end.
  all: split; [reflexivity|].
  all: match goal with
       | |- _ = (if decide (operate_of ?q = "clean") then _ else _) =>
           destruct (decide (operate_of q = "clean"))
       end; try congruence; reflexivity.
Qed.

(** C4. Every run of the provisioner parses the flags exactly once, and
    when what [-operate] then holds is not clean, the writes the run asks
    for are the namespace create, the deployment create and the service
    create, in this order: always a prefix of the three; nothing after a
    create that failed, so a later create is only issued after the earlier
    one returned without error; and all three, with a normal end, as soon
    as no call of the run fails. *)
Theorem create_calls_in_order v t o :
  exec (provisioner v) t o →
  ∃ parsed,
    parsed_flags t = [parsed]
    ∧ (operate_of parsed ≠ "clean" →
       operations t `prefix_of` create_sequence v
       ∧ stops_at_failure (outcomes t)
       ∧ (failures t = [] → operations t = create_sequence v ∧ o = Done tt)
       ∧ (o = Done tt → operations t = create_sequence v)).
Proof.
  intros H.
  destruct (provisioner_complete _ _ _ H) as (parsed & Hp & Hnf).
  exists parsed. split; [done|]. intros Hop.
  assert (parsed ∈ parsed_flags t) as Hp' by (rewrite Hp; apply list_elem_of_here).
  destruct (create_mode _ _ _ _ H Hp' Hop) as (Hpre & Hstop & Hdone & _).
  split; [done|]. split; [done|]. split; [|done].
  intros Hf. destruct (Hnf Hf) as [Ho Hops].
  by rewrite decide_False in Hops.
Qed.

(** Both provisioners against an empty cluster. *)
Lemma create_calls_in_order_witness :
  (let r := run (Sim.step Sim.no_faults) (provisioner Plain) Sim.empty in
   exec (provisioner Plain) (events r) (final r)
   ∧ final r = Done tt ∧ operations (events r) = create_sequence Plain)
  ∧ (let r := run (Sim.step Sim.no_faults) (provisioner Annotated) Sim.empty in
     exec (provisioner Annotated) (events r) (final r)
     ∧ final r = Done tt ∧ operations (events r) = create_sequence Annotated).
Proof.
  split; intros r.
  all: match goal with
       | |- exec (provisioner ?v) _ _ ∧ _ =>
           assert (exec (provisioner v) (events r) (final r)) as H by exec_concrete;
           split; [exact H|];
           destruct (create_calls_in_order v _ _ H) as (parsed & Hp & Hmode)
       end.
  all: injection Hp as <-.
  all: destruct Hmode as (_ & _ & Hnf & _); [vm_compute; discriminate|].
  all: destruct Hnf as [Hops Ho]; [reflexivity|].
  all: split; [exact Ho|exact Hops].
Defined.

(** C5. Every run of the provisioner parses the flags exactly once, and
    when what [-operate] then holds is clean, the writes the run asks for
    are the delete of service client-test-service, of deployment
    client-test-deployment, both in namespace test-clientset, and of
    namespace test-clientset, in this order, each with delete options that
    set nothing (no grace period, no propagation policy, no orphaning, no
    dry run): always a prefix of the three; nothing after a delete that
    failed; and all three, with a normal end, as soon as no call of the
    run fails. *)
Theorem clean_calls_in_order v t o :
  exec (provisioner v) t o →
  let unset :=
    {| DeleteOptions.GracePeriodSeconds := None;
       DeleteOptions.OrphanDependents := None;
       DeleteOptions.PropagationPolicy := None;
       DeleteOptions.DryRun := [] |} in
  let deletes :=
    [ DeleteService "test-clientset" "client-test-service" unset;
      DeleteDeployment "test-clientset" "client-test-deployment" unset;
      DeleteNamespace "test-clientset" unset ] in
  ∃ parsed,
    parsed_flags t = [parsed]
    ∧ (operate_of parsed = "clean" →
       operations t `prefix_of` deletes
       ∧ stops_at_failure (outcomes t)
       ∧ (failures t = [] → operations t = deletes ∧ o = Done tt)
       ∧ (o = Done tt → operations t = deletes)).
Proof.
  intros H unset deletes.
  destruct (provisioner_complete _ _ _ H) as (parsed & Hp & Hnf).
  exists parsed. split; [done|]. intros Hop.
  assert (parsed ∈ parsed_flags t) as Hp' by (rewrite Hp; apply list_elem_of_here).
  destruct (clean_mode _ _ _ _ H Hp' Hop) as (Hpre & Hstop & Hdone & _).
  split; [done|]. split; [done|]. split; [|done].
  intros Hf. destruct (Hnf Hf) as [Ho Hops].
  by rewrite decide_True in Hops.
Qed.

(** Cleaning, with either provisioner, the cluster a successful create left
    behind. *)
Lemma clean_calls_in_order_witness :
  let created := state (run (Sim.step Sim.no_faults) (provisioner Plain) Sim.empty) in
  let c := Sim.with_command_line {[ "operate" := "clean" ]} created in
  (let r := run (Sim.step Sim.no_faults) (provisioner Plain) c in
   exec (provisioner Plain) (events r) (final r)
   ∧ final r = Done tt
   ∧ operations (events r) = clean_sequence
   ∧ Sim.namespaces (state r) = [] ∧ Sim.deployments (state r) = []
   ∧ Sim.services (state r) = [])
  ∧ (let r := run (Sim.step Sim.no_faults) (provisioner Annotated) c in
     exec (provisioner Annotated) (events r) (final r)
     ∧ final r = Done tt
     ∧ operations (events r) = clean_sequence
     ∧ Sim.namespaces (state r) = [] ∧ Sim.deployments (state r) = []
     ∧ Sim.services (state r) = []).
Proof.
  intros created c. split; intros r.
  all: match goal with
       | |- exec (provisioner ?v) _ _ ∧ _ =>
           assert (exec (provisioner v) (events r) (final r)) as H by exec_concrete;
           split; [exact H|];
           destruct (clean_calls_in_order v _ _ H) as (parsed & Hp & Hmode)
       end.
  all: injection Hp as <-.
  all: destruct Hmode as (_ & _ & Hnf & _); [reflexivity|].
  all: destruct Hnf as [Hops Ho]; [reflexivity|].
  all: split; [exact Ho|]; split; [exact Hops|]; by vm_compute.
Defined.

(** C6. In every deployment the provisioner submits, the selector and the
    labels of the pod template are the map with the single entry
    app: tomcat, and so is the selector of every service it submits. *)
Theorem labels_agree v t o op :
  exec (provisioner v) t o → op ∈ operations t →
  match op with
  | CreateDeployment _ d _ =>
      DeploymentSpec.Selector (Deployment.Spec d)
      = Some {| LabelSelector.MatchLabels := {[ "app" := "tomcat" ]} |}
      ∧ ObjectMeta.Labels
          (PodTemplateSpec.ObjectMeta (DeploymentSpec.Template (Deployment.Spec d)))
        = {[ "app" := "tomcat" ]}
  | CreateService _ x _ =>
      ServiceSpec.Selector (Service.Spec x) = {[ "app" := "tomcat" ]}
  | _ => True
  end.
Proof.
  intros H Hin.
  destruct (provisioner_operations _ _ _ _ H Hin) as [Hop|Hop];
    repeat (apply elem_of_cons in Hop as [->|Hop]);
    try (by apply elem_of_nil in Hop); try done.
  by destruct v.
Qed.

Lemma labels_agree_witness :
  let r := run (Sim.step Sim.no_faults) (provisioner Annotated) Sim.empty in
  let d := ProvisionerAnnotated.deployment in
  DeploymentSpec.Selector (Deployment.Spec d)
  = Some {| LabelSelector.MatchLabels := {[ "app" := "tomcat" ]} |}
  ∧ ObjectMeta.Labels
      (PodTemplateSpec.ObjectMeta (DeploymentSpec.Template (Deployment.Spec d)))
    = {[ "app" := "tomcat" ]}.
Proof.
  intros r d.
  refine (labels_agree Annotated (events r) (final r)
            (CreateDeployment ProvisionerAnnotated.NAMESPACE d CreateOptions_zero) _ _).
  - exec_concrete.
  - apply list_elem_of_further, list_elem_of_here.
Defined.

(** C9, as amended. The provisioner with comments submits its deployment
    with two replicas; the other provisioner leaves [Replicas] nil in every
    deployment it submits. *)
Theorem replicas_by_variant :
  submits_two_replicas Annotated
  ∧ ∀ t o ns d opts,
      exec (provisioner Plain) t o →
      CreateDeployment ns d opts ∈ operations t →
      DeploymentSpec.Replicas (Deployment.Spec d) = None.
Proof.
  split; intros t o ns d opts H Hin.
  all: destruct (provisioner_operations _ _ _ _ H Hin) as [Hop|Hop];
    repeat (apply elem_of_cons in Hop as [Hop|Hop]);
    try (by apply elem_of_nil in Hop); try discriminate.
  all: by injection Hop as -> -> ->.
Qed.

Lemma replicas_by_variant_witness :
  let r := run (Sim.step Sim.no_faults) (provisioner Annotated) Sim.empty in
  CreateDeployment ProvisionerAnnotated.NAMESPACE ProvisionerAnnotated.deployment
    CreateOptions_zero ∈ operations (events r)
  ∧ DeploymentSpec.Replicas (Deployment.Spec ProvisionerAnnotated.deployment) = Some 2.
Proof.
  intros r.
  assert (CreateDeployment ProvisionerAnnotated.NAMESPACE ProvisionerAnnotated.deployment
            CreateOptions_zero ∈ operations (events r)) as Hin
    by apply list_elem_of_further, list_elem_of_here.
  split; [exact Hin|].
  refine (proj1 replicas_by_variant (events r) (final r) _ _ _ _ Hin).
  exec_concrete.
Defined.

(** C9, as stated, fails on the provisioner without comments: run on an
    empty cluster, it submits a deployment whose [Replicas] is nil. *)
Lemma replicas_counterexample : ¬ submits_two_replicas Plain.
Proof.
  intros Hall.
  pose (r := run (Sim.step Sim.no_faults) (provisioner Plain) Sim.empty).
  assert (exec (provisioner Plain) (events r) (final r)) as H by exec_concrete.
  assert (CreateDeployment Provisioner.NAMESPACE Provisioner.deployment
            CreateOptions_zero ∈ operations (events r)) as Hin
    by apply list_elem_of_further, list_elem_of_here.
  specialize (Hall _ _ _ _ _ H Hin). discriminate.
Qed.

(** C10. Every deployment the provisioner submits has one container with
    one port, named http, container port 8080, whose protocol is SCTP; and
    SCTP is not TCP. *)
Theorem container_port_is_sctp v t o ns d opts :
  exec (provisioner v) t o → CreateDeployment ns d opts ∈ operations t →
  ∃ c,
    PodSpec.Containers (PodTemplateSpec.Spec (DeploymentSpec.Template (Deployment.Spec d)))
    = [c]
    ∧ Container.Ports c
      = [ {| ContainerPort.Name := "http";
             ContainerPort.Protocol := ProtocolSCTP;
             ContainerPort.ContainerPort := 8080 |} ]
    ∧ ProtocolSCTP ≠ ProtocolTCP.
Proof.
  intros H Hin.
  destruct (provisioner_operations _ _ _ _ H Hin) as [Hop|Hop];
    repeat (apply elem_of_cons in Hop as [Hop|Hop]);
    try (by apply elem_of_nil in Hop); try discriminate.
  injection Hop as -> -> ->. destruct v; by eexists.
Qed.

Lemma container_port_is_sctp_witness :
  let r := run (Sim.step Sim.no_faults) (provisioner Plain) Sim.empty in
  ∃ c,
    PodSpec.Containers
      (PodTemplateSpec.Spec (DeploymentSpec.Template (Deployment.Spec Provisioner.deployment)))
    = [c]
    ∧ Container.Ports c
      = [ {| ContainerPort.Name := "http";
             ContainerPort.Protocol := ProtocolSCTP;
             ContainerPort.ContainerPort := 8080 |} ]
    ∧ ProtocolSCTP ≠ ProtocolTCP.
Proof.
  intros r.
  refine (container_port_is_sctp Plain (events r) (final r)
            Provisioner.NAMESPACE Provisioner.deployment CreateOptions_zero _ _).
  - exec_concrete.
  - apply list_elem_of_further, list_elem_of_here.
Defined.

(** ** The listers *)

(** The loop over the pods of a list prints their rows and nothing else. *)
Lemma exec_rows (row : string) (l : list Pod.t) t o :
  exec (range l (λ d _, perform (fmt_Printf row (pod_fields d))) tt) t o →
  o = Done tt
  ∧ printed t = (λ d, (row, pod_fields d)) <$> l
  ∧ tuples t = pod_tuple <$> l
  ∧ failures t = [] ∧ listings t = [] ∧ halts_on_failure t
  ∧ operations t = [] ∧ converted t = [] ∧ untyped t = [].
Proof.
  revert t. induction l as [|d l IH]; intros t; simpl.
  - by intros [-> ->].
  - intros ([] & t' & -> & H).
    destruct (IH _ H) as (-> & Hp & Ht & Hf & Hl & Hh & Ho & Hc & Hu).
    unfold tuples, printed, failures, listings, operations, converted, untyped in *.
    cbn. rewrite Ht, Hp, Hf, Hl, Ho, Hc, Hu. done.
Qed.



Arguments RestLister.each_namespace : simpl never.
Arguments RestListerAnnotated.each_namespace : simpl never.

Lemma each_namespace_same :
  RestListerAnnotated.each_namespace = RestLister.each_namespace.
Proof. reflexivity. Qed.

Lemma halts_on_failure_app t1 t2 :
  failures t1 = [] → halts_on_failure t2 → halts_on_failure (t1 ++ t2).
Proof.
  induction t1 as [|e t1 IH]; [done|]. unfold failures. cbn.
  destruct (failure e); [done|]. auto.
Qed.

Lemma halts_one_failure t m ms :
  halts_on_failure t → failures t = m :: ms → ms = [].
Proof.
  unfold failures. induction t as [|e t IH]; [done|]. cbn.
  destruct (failure e); [|done]. by intros -> [= _ <-].
Qed.

(** One turn of the loop over the namespaces: one list call for the pods of
    the namespace, limit 500; on an error nothing more, otherwise the rows
    of the pods it returned. *)
Lemma exec_each_namespace rc ns res t o :
  exec (RestLister.each_namespace rc ns res) t o →
  ∃ r rows,
    t = Ev (REST_Get_Into rc (ObjectMeta.Name (Namespace.ObjectMeta ns)) "pods"
              (ListOptions_limit 500)) r :: rows
    ∧ match r with
      | Err e => rows = [] ∧ o = Panicked e
      | Ok pl =>
          o = Done pl
          ∧ tuples rows = pod_tuple <$> PodList.Items pl
          ∧ failures rows = [] ∧ halts_on_failure rows
          ∧ listings rows = [] ∧ operations rows = []
      end.
Proof.
  unfold RestLister.each_namespace. cbn. intros (r & t' & -> & H).
  exists r, t'. split; [done|]. destruct r as [pl|e]; cbn in H.
  - apply exec_bind in H as [(a & t1 & t2 & H1 & [-> ->] & ->)|(v & H1 & ->)];
      apply exec_rows in H1 as (E & Hp & Ht & Hf & Hl & Hh & Ho & Hc & Hu);
      [|discriminate].
    rewrite app_nil_r. done.
  - by destruct H as [-> ->].
Qed.

(** The loop over the namespaces stops at the first list call that fails,
    with its error. *)
Lemma exec_namespaces rc l res t o :
  exec (range l (RestLister.each_namespace rc) res) t o →
  halts_on_failure t
  ∧ operations t = []
  ∧ match failures t with
    | [] => ∃ r, o = Done r
    | m :: _ => o = Panicked m
    end.
Proof.
  revert res t. induction l as [|ns l IH]; intros res t.
  - intros [-> ->]. cbn. eauto.
  - intros H.
    change (exec (s' <- RestLister.each_namespace rc ns res ;;
                  range l (RestLister.each_namespace rc) s') t o) in H.
    apply exec_bind in H as [(a & t1 & t2 & H1 & H2 & ->)|(v & H1 & ->)];
      apply exec_each_namespace in H1 as (r & rows & -> & Hr);
      destruct r as [pl|e].
    + destruct Hr as (_ & _ & Hf & Hh & _ & Ho).
      apply IH in H2 as (Hh2 & Ho2 & Hf2).
      unfold failures, operations in *. cbn.
      rewrite !omap_app, Hf, Ho, Ho2. cbn. split; [|done].
      by apply halts_on_failure_app.
    + by destruct Hr as [_ [=]].
    + by destruct Hr as [[=] _].
    + destruct Hr as [-> [= ->]]. done.
Qed.

(** C7. In the typed REST lister a call that returns an error is the last
    thing the run does: nothing follows it in the trace (no later namespace
    is listed, whatever was printed before stays printed), and the run ends
    in a panic carrying that error; a run without a failed call ends
    normally.  The lister with comments does not test the error of the
    clientset construction: there the panic is the nil dereference of the
    next statement. *)
Theorem rest_lister_aborts v t o :
  exec (rest_lister v) t o →
  halts_on_failure t
  ∧ (failures t = [] → o = Done tt)
  ∧ (∀ m, m ∈ failures t →
       o = Panicked m
       ∨ (v = Annotated ∧ clientsets t = [] ∧ o = Panicked nil_dereference)).
Proof.
  intros H.
  destruct v; unfold rest_lister, RestLister.main, RestListerAnnotated.main in H;
    rewrite ?each_namespace_same in H; exec_inv H.
  all: try (apply exec_bind in H as [(a' & t1 & t2 & H1 & [-> ->] & ->)|(m' & H1 & ->)];
            apply exec_namespaces in H1 as (Hh & Ho & Hf);
            rewrite ?app_nil_r).
  all: unfold failures in *; cbn.
  all: try (destruct (omap failure _) as [|m0 ms] eqn:E;
            [destruct Hf as [r Hr]
            |pose proof (halts_one_failure _ _ _ Hh E) as ->]; simplify_eq).
  all: repeat split; try done.
  all: intros m Hin; try (by apply elem_of_nil in Hin).
  all: apply list_elem_of_singleton in Hin as ->; auto.
Qed.

Lemma rest_lister_aborts_witness :
  let r := run (Sim.step Sim.fail_kube_system) (rest_lister Plain) Sim.two_namespaces in
  exec (rest_lister Plain) (events r) (final r)
  ∧ tuples (events r) = [("default", "Running", "web")]
  ∧ failures (events r) = ["the server is currently unable to handle the request"]
  ∧ halts_on_failure (events r)
  ∧ final r = Panicked "the server is currently unable to handle the request".
Proof.
  intros r.
  assert (exec (rest_lister Plain) (events r) (final r)) as H by exec_concrete.
  split; [exact H|]. split; [reflexivity|]. split; [reflexivity|].
  destruct (rest_lister_aborts Plain _ _ H) as (Hh & _ & Hm).
  split; [exact Hh|].
  destruct (Hm _ (list_elem_of_here _ _)) as [E|[E _]]; [exact E|discriminate E].
Defined.

(** ** The provisioner against the simulated cluster *)

(** A call that is not a delete removes nothing from the cluster. *)
Lemma sim_step_keeps f e w op :
  (∀ o, operation_of e = Some o → is_create o = true) →
  present op w → present op (replay (Sim.step f) [e] w).
Proof.
  destruct e as [X c r]. intros Hc Hp.
  destruct c; cbn in *; try done;
    try (by specialize (Hc _ eq_refl)).
  all: destruct (f _ _); cbn; [done|].
  all: repeat case_match; cbn; try done.
  all: destruct op; cbn in *; try done.
  all: intros Hd; apply elem_of_app; left; auto.
Qed.

Lemma sim_replay_keeps f t w op :
  Forall (λ o, is_create o = true) (operations t) →
  present op w → present op (replay (Sim.step f) t w).
Proof.
  revert w. induction t as [|e t IH]; intros w Hall Hp; [done|].
  destruct e as [X c r].
  change (replay (Sim.step f) (Ev c r :: t) w)
    with (replay (Sim.step f) t (replay (Sim.step f) [Ev c r] w)).
  unfold operations in Hall. cbn [omap list_omap] in Hall.
  destruct (operation_of (Ev c r)) as [o|] eqn:E.
  - apply Forall_cons in Hall as [Ho Hall].
    apply IH; [done|]. apply sim_step_keeps; [|done].
    intros o' Eo. by simplify_eq.
  - apply IH; [done|]. apply sim_step_keeps; [|done].
    intros o' Eo. by simplify_eq.
Qed.

(** What a create that returned without error stored is in the cluster
    right afterwards. *)
Lemma sim_create_stores f e w op :
  consistent (Sim.step f) [e] w →
  operation_of e = Some op → is_create op = true → failure e = None →
  present op (replay (Sim.step f) [e] w).
Proof.
  destruct e as [X c r]. intros [Hr _] Eo Hc Hf.
  destruct c; cbn in *; simplify_eq; try done.
  all: destruct (f _ _); cbn in *; [by subst|].
  all: repeat case_match; cbn in *; subst; try done.
  all: intros Hd; try done; apply elem_of_app; right; apply list_elem_of_here.
Qed.

(** While no delete is issued, every object a successful create stored is
    still there at the end. *)
Lemma sim_created_present f t w op :
  consistent (Sim.step f) t w →
  Forall (λ o, is_create o = true) (operations t) →
  (op, None) ∈ outcomes t →
  present op (replay (Sim.step f) t w).
Proof.
  revert w. induction t as [|e t IH]; intros w Hc Hall Hin.
  { by apply elem_of_nil in Hin. }
  destruct e as [X c r].
  change (replay (Sim.step f) (Ev c r :: t) w)
    with (replay (Sim.step f) t (replay (Sim.step f) [Ev c r] w)).
  destruct Hc as [Hr Hc].
  unfold operations in Hall. unfold outcomes in Hin.
  cbn [omap list_omap] in Hall, Hin.
  destruct (operation_of (Ev c r)) as [o|] eqn:E; cbn in Hin.
  - apply Forall_cons in Hall as [Ho Hall].
    apply elem_of_cons in Hin as [Hin|Hin].
    + injection Hin as -> Hf.
      apply sim_replay_keeps; [done|].
      apply sim_create_stores; [by split|done..].
    + by apply IH.
  - by apply IH.
Qed.

(** C3. The provisioner in create mode against the simulated cluster,
    whatever the cluster holds and whichever calls are made to fail: the
    run issues no delete; a create that fails is the last write and the run
    ends in a panic with its error; and every object whose create returned
    without error is in the cluster when the run has ended. *)
Theorem no_rollback v f c :
  let r := run (Sim.step f) (provisioner v) c in
  operate_of (Sim.command_line c) ≠ "clean" →
  Forall (λ op, is_create op = true) (operations (events r))
  ∧ stops_at_failure (outcomes (events r))
  ∧ (∀ op m, (op, Some m) ∈ outcomes (events r) → final r = Panicked m)
  ∧ (∀ op, (op, None) ∈ outcomes (events r) → present op (state r)).
Proof.
  intros r Hop.
  pose proof (run_exec (Sim.step f) (provisioner v) c) as H.
  pose proof (run_consistent (Sim.step f) (provisioner v) c) as Hc.
  pose proof (run_replay (Sim.step f) (provisioner v) c) as Hs.
  fold r in H, Hc, Hs.
  destruct (provisioner_startup _ _ _ H) as (home & parsed & t' & E & _ & Hp).
  assert (parsed = Sim.command_line c) as ->.
  { rewrite E in Hc. by destruct Hc as (_ & -> & _). }
  assert (Sim.command_line c ∈ parsed_flags (events r)) as Hp'
    by (rewrite Hp; apply list_elem_of_here).
  destruct (create_mode _ _ _ _ H Hp' Hop) as ([k Hk] & Hstop & _ & _ & Hfail).
  assert (Forall (λ op, is_create op = true) (operations (events r))) as Hall.
  { assert (Forall (λ op, is_create op = true) (create_sequence v)) as Hseq
      by (by repeat constructor).
    rewrite Hk in Hseq. by apply Forall_app in Hseq as [? _]. }
  repeat split; try done.
  intros op Hin. rewrite Hs. by apply sim_created_present.
Qed.

Lemma no_rollback_witness :
  let r := run (Sim.step Sim.reject_deployments) (provisioner Plain) Sim.empty in
  operate_of (Sim.command_line Sim.empty) ≠ "clean"
  ∧ outcomes (events r)
    = [ (CreateNamespace Provisioner.namespace CreateOptions_zero, None);
        (CreateDeployment Provisioner.NAMESPACE Provisioner.deployment CreateOptions_zero,
         Some "admission webhook denied the request") ]
  ∧ final r = Panicked "admission webhook denied the request"
  ∧ Provisioner.namespace ∈ Sim.namespaces (state r).
Proof.
  intros r.
  assert (operate_of (Sim.command_line Sim.empty) ≠ "clean") as Hop
    by (vm_compute; discriminate).
  split; [exact Hop|]. split; [reflexivity|].
  destruct (no_rollback Plain Sim.reject_deployments Sim.empty Hop)
    as (_ & _ & Hfail & Hkept).
  split.
  - exact (Hfail _ _ (list_elem_of_further _ _ _ (list_elem_of_here _ _))).
  - exact (Hkept _ (list_elem_of_here _ _) eq_refl).
Defined.

(** ** The listers against the simulated cluster *)

Lemma decode_encode_pod d : Sim.decode_pod (Sim.encode_pod d) = Ok (recovered d).
Proof. reflexivity. Qed.

Lemma decode_encode_all l :
  Sim.decode_all (Sim.encode_pod <$> l) = Ok (recovered <$> l).
Proof.
  induction l as [|d l IH]; [done|].
  rewrite !fmap_cons. cbn [Sim.decode_all]. by rewrite decode_encode_pod, IH.
Qed.

Lemma decode_encode_pods l :
  Sim.decode_pods (Sim.encode_pods l) = Ok {| PodList.Items := recovered <$> l |}.
Proof.
  unfold Sim.decode_pods, Sim.encode_pods.
  change (Sim.field "items" _) with (USlice (Sim.encode_pod <$> l)).
  cbv beta iota. by rewrite decode_encode_all.
Qed.

Arguments Sim.decode_pods : simpl never.
Arguments Sim.encode_pods : simpl never.
Arguments Sim.pods_listed : simpl never.
Arguments Sim.limited : simpl never.

Lemma tuples_recovered (l : list Pod.t) :
  pod_tuple <$> (recovered <$> l) = pod_tuple <$> l.
Proof. induction l as [|d l IH]; [done|]. rewrite !fmap_cons, IH. done. Qed.

(** Turns the consistency of a trace with the simulated cluster into the
    values the calls returned. *)
Ltac sim_answers Hc :=
  cbn in Hc; destruct_and?;
  repeat match goal with
         | Hx : context [decide (?a = ?a)] |- _ =>
             rewrite (decide_True (P := a = a)) in Hx by done
         end;
  simplify_eq;
  rewrite ?decode_encode_pods in *; simplify_eq.

Lemma sim_dynamic_run c :
  let r := run (Sim.step Sim.no_faults) DynamicLister.main c in
  final r = Done tt ∧ tuples (events r) = dynamic_rows c.
Proof.
  intros r.
  pose proof (run_exec (Sim.step Sim.no_faults) DynamicLister.main c) as H.
  pose proof (run_consistent (Sim.step Sim.no_faults) DynamicLister.main c) as Hc.
  fold r in H, Hc. revert H Hc. generalize (events r) (final r). intros t o H Hc.
  unfold DynamicLister.main in H. exec_inv H; sim_answers Hc.
  apply exec_rows in H as (-> & Hp & Ht & _).
  split; [done|]. unfold tuples, printed in *. cbn. rewrite Ht.
  apply tuples_recovered.
Qed.

Lemma consistent_app {S} (h : backend S) t1 t2 s :
  consistent h (t1 ++ t2) s ↔ consistent h t1 s ∧ consistent h t2 (replay h t1 s).
Proof.
  revert s. induction t1 as [|[X c r] t1 IH]; intros s; cbn.
  - tauto.
  - rewrite IH. tauto.
Qed.

Lemma tuples_app t1 t2 : tuples (t1 ++ t2) = tuples t1 ++ tuples t2.
Proof. unfold tuples, printed. by rewrite !omap_app. Qed.

(** Reads and prints leave the simulated cluster as it is. *)
Lemma sim_replay_reads f t w :
  operations t = [] → replay (Sim.step f) t w = w.
Proof.
  revert w. induction t as [|[X c r] t IH]; intros w; [done|].
  unfold operations. destruct c; cbn; try done; apply IH.
Qed.

(** The loop over the namespaces against the simulated cluster. *)
Lemma sim_namespaces_loop rc l res t o w :
  exec (range l (RestLister.each_namespace rc) res) t o →
  consistent (Sim.step Sim.no_faults) t w →
  (∃ r, o = Done r)
  ∧ tuples t
    = l ≫= λ ns,
        pod_tuple <$> Sim.pods_listed (ObjectMeta.Name (Namespace.ObjectMeta ns))
                        (ListOptions_limit 500) w.
Proof.
  revert res t. induction l as [|ns l IH]; intros res t.
  - intros [-> ->] _. eauto.
  - intros H Hc.
    change (exec (s' <- RestLister.each_namespace rc ns res ;;
                  range l (RestLister.each_namespace rc) s') t o) in H.
    apply exec_bind in H as [(a & t1 & t2 & H1 & H2 & ->)|(v & H1 & ->)];
      apply exec_each_namespace in H1 as (r & rows & -> & Hr).
    + apply consistent_app in Hc as [Hc1 Hc2].
      destruct r as [pl|e]; [|by destruct Hr as [_ [=]]].
      destruct Hr as (_ & Ht & _ & _ & _ & Ho).
      rewrite sim_replay_reads in Hc2 by done.
      destruct (IH _ _ H2 Hc2) as [Hd Ht2]. split; [done|].
      rewrite tuples_app, Ht2, bind_cons. f_equal.
      change (tuples (_ :: rows)) with (tuples rows). rewrite Ht.
      sim_answers Hc1. done.
    + destruct r as [pl|e]; [by destruct Hr as [[=] _]|].
      sim_answers Hc.
Qed.

Lemma sim_typed_run v c :
  let r := run (Sim.step Sim.no_faults) (rest_lister v) c in
  final r = Done tt ∧ tuples (events r) = typed_rows c.
Proof.
  intros r.
  pose proof (run_exec (Sim.step Sim.no_faults) (rest_lister v) c) as H.
  pose proof (run_consistent (Sim.step Sim.no_faults) (rest_lister v) c) as Hc.
  fold r in H, Hc. revert H Hc. generalize (events r) (final r). intros t o H Hc.
  destruct v; unfold rest_lister, RestLister.main, RestListerAnnotated.main in H;
    rewrite ?each_namespace_same in H; exec_inv H.
  all: try (apply exec_bind in H as [(a' & t1 & t2 & H1 & [-> ->] & ->)|(m' & H1 & ->)];
            rewrite ?app_nil_r in *).
  all: sim_answers Hc.
  all: match goal with
       | Hl : exec (range _ _ _) _ _, Hk : consistent _ _ _ |- _ =>
           destruct (sim_namespaces_loop _ _ _ _ _ _ Hl Hk) as [[r' Hr'] Ht]
       end; simplify_eq.
  all: split; [done|]; unfold tuples, printed in *; cbn; by rewrite Ht.
Qed.

Lemma filter_all {A} (P : A → Prop) `{∀ x, Decision (P x)} (l : list A) :
  (∀ x, x ∈ l → P x) → filter P l = l.
Proof.
  induction l as [|x l IH]; intros Hall; [done|].
  rewrite filter_cons_True by (apply Hall, list_elem_of_here).
  f_equal. apply IH. intros y Hy. by apply Hall, list_elem_of_further.
Qed.

Lemma pods_listed_subseteq ns opts c d :
  d ∈ Sim.pods_listed ns opts c → d ∈ Sim.pods c.
Proof.
  unfold Sim.pods_listed, Sim.limited. intros Hd.
  destruct (decide (0 < ListOptions.Limit opts)).
  - apply subseteq_take in Hd. by apply list_elem_of_filter in Hd as [_ ?].
  - by apply list_elem_of_filter in Hd as [_ ?].
Qed.

Lemma pods_listed_all ns n c :
  (∀ d, d ∈ Sim.pods c → ObjectMeta.Namespace (Pod.ObjectMeta d) = ns) →
  (length (Sim.pods c) ≤ Z.to_nat n)%nat →
  Sim.pods_listed ns (ListOptions_limit n) c = Sim.pods c.
Proof.
  intros Hns Hlen. unfold Sim.pods_listed.
  rewrite filter_all.
  - unfold Sim.limited. destruct (decide _); [|done]. by apply take_ge.
  - intros d Hd. unfold Sim.in_namespace. apply bool_decide_pack. right. auto.
Qed.

(** C1, as amended. When every pod of the cluster lives in kube-system,
    kube-system is one of the namespaces the cluster lists, and there are at
    most 100 pods, both listers end normally and print the same set of
    (namespace, phase, name) tuples. *)
Theorem listers_agree_in_kube_system v c :
  (∀ d, d ∈ Sim.pods c → ObjectMeta.Namespace (Pod.ObjectMeta d) = "kube-system") →
  (∃ n, n ∈ Sim.namespaces c
        ∧ ObjectMeta.Name (Namespace.ObjectMeta n) = "kube-system") →
  (length (Sim.pods c) ≤ 100)%nat →
  let dyn := run (Sim.step Sim.no_faults) DynamicLister.main c in
  let typed := run (Sim.step Sim.no_faults) (rest_lister v) c in
  final dyn = Done tt
  ∧ final typed = Done tt
  ∧ ∀ row, row ∈ tuples (events dyn) ↔ row ∈ tuples (events typed).
Proof.
  intros Hns (n & Hn & Hname) Hlen dyn typed.
  destruct (sim_dynamic_run c) as [Hd Htd].
  destruct (sim_typed_run v c) as [Ht Htt].
  fold dyn in Hd, Htd. fold typed in Ht, Htt.
  split; [done|]. split; [done|]. intros row. rewrite Htd, Htt.
  unfold dynamic_rows, typed_rows.
  rewrite pods_listed_all by (done || (change (Z.to_nat 100) with 100%nat; lia)).
  split.
  - intros Hrow. apply list_elem_of_bind. exists n. split; [|done].
    rewrite Hname, pods_listed_all; [done..|].
    change (Z.to_nat 500) with 500%nat. lia.
  - intros Hrow. apply list_elem_of_bind in Hrow as (ns & Hrow & _).
    apply list_elem_of_fmap in Hrow as (d & -> & Hd').
    apply list_elem_of_fmap_2. by apply pods_listed_subseteq in Hd'.
Qed.

Lemma listers_agree_in_kube_system_witness :
  let dyn := run (Sim.step Sim.no_faults) DynamicLister.main Sim.system_only in
  let typed := run (Sim.step Sim.no_faults) (rest_lister Plain) Sim.system_only in
  tuples (events dyn)
  = [("kube-system", "Running", "coredns"); ("kube-system", "Pending", "etcd")]
  ∧ final dyn = Done tt
  ∧ final typed = Done tt
  ∧ ∀ row, row ∈ tuples (events dyn) ↔ row ∈ tuples (events typed).
Proof.
  intros dyn typed. split; [reflexivity|].
  apply (listers_agree_in_kube_system Plain Sim.system_only).
  - intros d Hd. cbn in Hd.
    repeat (apply elem_of_cons in Hd as [->|Hd]; [reflexivity|]).
    by apply elem_of_nil in Hd.
  - eexists. split; [apply list_elem_of_further, list_elem_of_here|reflexivity].
  - cbn. lia.
Defined.

(** C1, as stated, fails: with one pod in namespace default and one in
    kube-system, the typed REST lister prints both and the dynamic lister
    only the second. *)
Lemma listers_disagree :
  let dyn := run (Sim.step Sim.no_faults) DynamicLister.main Sim.two_namespaces in
  let typed := run (Sim.step Sim.no_faults) (rest_lister Plain) Sim.two_namespaces in
  final dyn = Done tt ∧ final typed = Done tt
  ∧ tuples (events dyn) = [("kube-system", "Running", "coredns")]
  ∧ tuples (events typed)
    = [("default", "Running", "web"); ("kube-system", "Running", "coredns")]
  ∧ ¬ (∀ row, row ∈ tuples (events dyn) ↔ row ∈ tuples (events typed)).
Proof.
  intros dyn typed. repeat split; try reflexivity.
  intros Hall.
  assert (("default", "Running", "web") ∈ tuples (events dyn)) as Hin
    by (apply Hall, list_elem_of_here).
  apply list_elem_of_singleton in Hin. discriminate Hin.
Qed.

(** * Further properties of the programs *)

(** ** Start-up *)

(** X1. Each of the five programs starts the same way: it asks for the home
    directory, parses the flags, and loads the configuration with an empty
    master URL from the path [-kubeconfig] gives, which defaults to
    .kube/config under the home directory, joined and cleaned as
    [filepath.Join] does, and to the empty path when there is no home
    directory. *)
Theorem kubeconfig_default p t o :
  p ∈ programs → exec p t o →
  ∃ home parsed r t',
    t = Ev homedir_HomeDir home
        :: Ev flag_Parse parsed
        :: Ev (clientcmd_BuildConfigFromFlags "" (kubeconfig_path home parsed)) r
        :: t'.
Proof.
  intros Hp H. unfold programs in Hp.
  repeat (apply elem_of_cons in Hp as [->|Hp]); [..|by apply elem_of_nil in Hp].
  all: cbn in H; destruct H as (home & t1 & -> & H).
  all: cbn in H; destruct H as (parsed & t2 & -> & H).
  all: cbn in H; destruct H as (r & t3 & -> & H).
  all: exists home, parsed, r, t3; unfold kubeconfig_path, deref.
  all: by destruct (decide (home ≠ "")).
Qed.

(** The lister started from the root directory as home: the path is
    cleaned, with one slash after the root. *)
Lemma kubeconfig_default_witness :
  let r := run (Sim.step Sim.no_faults) RestLister.main
             (at_home "/" Sim.two_namespaces) in
  exec RestLister.main (events r) (final r)
  ∧ homes (events r) = ["/"]
  ∧ parsed_flags (events r) = [∅]
  ∧ head (kubeconfigs (events r)) = Some "/.kube/config".
Proof.
  intros r.
  assert (exec RestLister.main (events r) (final r)) as H by exec_concrete.
  split; [exact H|].
  destruct (kubeconfig_default RestLister.main (events r) (final r))
    as (home & parsed & a & t' & E);
    [apply list_elem_of_further, list_elem_of_here|exact H|].
  pose proof (f_equal (λ t, head (homes t)) E) as Hh.
  pose proof (f_equal (λ t, head (parsed_flags t)) E) as Hp.
  injection Hh as <-. injection Hp as <-.
  split; [reflexivity|]. split; [reflexivity|].
  rewrite E. reflexivity.
Defined.

(** What [filepath.Join] makes of some home directories. *)
Lemma filepath_Join_examples :
  filepath_Join ["/root"; ".kube"; "config"] = "/root/.kube/config"
  ∧ filepath_Join ["/"; ".kube"; "config"] = "/.kube/config"
  ∧ filepath_Join ["/home/user/"; ".kube"; "config"] = "/home/user/.kube/config"
  ∧ filepath_Join ["/home//user/."; ".kube"; "config"] = "/home/user/.kube/config"
  ∧ filepath_Join ["/home/user/.."; ".kube"; "config"] = "/home/.kube/config"
  ∧ filepath_Join ["/.."; ".kube"; "config"] = "/.kube/config"
  ∧ filepath_Join [".."; ".kube"; "config"] = "../.kube/config"
  ∧ filepath_Join ["."; ".kube"; "config"] = ".kube/config"
  ∧ filepath_Join [""; ".kube"; "config"] = ".kube/config"
  ∧ filepath_Join [""; ""] = "".
Proof. repeat split; reflexivity. Qed.

(** ** The provisioner, continued *)

(** X2. When the provisioner gets no clientset (loading the configuration
    or building the clientset failed), it has issued no write and printed
    nothing, not even the operate line, and it ends in a panic with the
    error of the one call that failed. *)
Theorem provisioner_setup_failure v t o :
  exec (provisioner v) t o → clientsets t = [] →
  operations t = [] ∧ printed t = []
  ∧ ∃ m, failures t = [m] ∧ o = Panicked m.
Proof.
  intros H Hcs. provisioner_cases H; try discriminate Hcs.
  all: cbn; eauto.
Qed.

Lemma provisioner_setup_failure_witness :
  let refuse : Sim.faults := λ X c,
    match c with
    | clientcmd_BuildConfigFromFlags _ _ => Some "stat /root/.kube/config: no such file or directory"
    | _ => None
    end in
  let r := run (Sim.step refuse) (provisioner Plain) Sim.empty in
  operations (events r) = [] ∧ printed (events r) = []
  ∧ ∃ m, failures (events r) = [m] ∧ final r = Panicked m.
Proof.
  intros refuse r.
  apply (provisioner_setup_failure Plain (events r) (final r)).
  - exec_concrete.
  - reflexivity.
Defined.

(** X3. In create mode, once the clientset exists, standard output is the
    operate line followed by one confirmation line per create that
    returned without error, in order; each carries the name of the
    object the server returned, and a create that failed prints nothing. *)
Theorem create_confirmation_lines v t o parsed :
  exec (provisioner v) t o → parsed ∈ parsed_flags t →
  operate_of parsed ≠ "clean" → clientsets t ≠ [] →
  printed t = operate_line parsed :: confirmations t.
Proof.
  intros H Hp Hop Hcs. provisioner_cases H; cbn in Hp;
    apply list_elem_of_singleton in Hp as ->; try congruence.
  all: done.
Qed.

Lemma create_confirmation_lines_witness :
  let r := run (Sim.step Sim.reject_deployments) (provisioner Plain) Sim.empty in
  printed (events r)
  = [ ("operate is %v" +:+ NL, ["create"]);
      ("Create namespace %s " +:+ NL, ["test-clientset"]) ].
Proof.
  intros r.
  refine (create_confirmation_lines Plain (events r) (final r) ∅ _ _ _ _).
  - exec_concrete.
  - apply list_elem_of_here.
  - vm_compute. discriminate.
  - vm_compute. discriminate.
Defined.

(** X4. In clean mode, once the clientset exists, the operate line is all
    the provisioner prints: a delete is not confirmed, whether it
    succeeds or fails. *)
Theorem clean_prints_operate_line_only v t o parsed :
  exec (provisioner v) t o → parsed ∈ parsed_flags t →
  operate_of parsed = "clean" → clientsets t ≠ [] →
  printed t = [operate_line parsed].
Proof.
  intros H Hp Hop Hcs. provisioner_cases H; cbn in Hp;
    apply list_elem_of_singleton in Hp as ->; try congruence.
  all: done.
Qed.

Lemma clean_prints_operate_line_only_witness :
  let c := Sim.with_command_line {[ "operate" := "clean" ]} Sim.empty in
  let r := run (Sim.step Sim.no_faults) (provisioner Annotated) c in
  final r = Panicked "not found"
  ∧ printed (events r) = [ ("operate is %v" +:+ NL, ["clean"]) ].
Proof.
  intros c r. split; [reflexivity|].
  refine (clean_prints_operate_line_only Annotated (events r) (final r)
            {[ "operate" := "clean" ]} _ _ _ _).
  - exec_concrete.
  - apply list_elem_of_here.
  - reflexivity.
  - vm_compute. discriminate.
Defined.

(** ** The listers, continued *)

Arguments rows_trace : simpl never.

Lemma exec_rows_trace (row : string) (l : list Pod.t) t o :
  exec (range l (λ d _, perform (fmt_Printf row (pod_fields d))) tt) t o →
  t = rows_trace row l ∧ o = Done tt.
Proof.
  revert t. induction l as [|d l IH]; intros t; simpl.
  - by intros [-> ->].
  - intros ([] & t' & -> & H). by destruct (IH _ H) as [-> ->].
Qed.

Lemma printed_rows_trace row l :
  printed (rows_trace row l) = (λ d, (row, pod_fields d)) <$> l.
Proof.
  unfold printed, rows_trace. induction l as [|d l IH]; [done|].
  rewrite !fmap_cons. cbn. by rewrite IH.
Qed.

(** A reading that ignores prints finds nothing in the rows. *)
Lemma omap_rows_trace {B} (f : event → option B) row l :
  (∀ fmt a, f (Ev (fmt_Printf fmt a) tt) = None) →
  omap f (rows_trace row l) = [].
Proof.
  intros Hf. unfold rows_trace. induction l as [|d l IH]; [done|].
  rewrite fmap_cons. cbn. by rewrite Hf.
Qed.

(** One turn of the loop over the namespaces, exactly. *)
Lemma exec_each_namespace_trace rc ns res t o :
  exec (RestLister.each_namespace rc ns res) t o →
  ∃ r,
    t = Ev (REST_Get_Into rc (ObjectMeta.Name (Namespace.ObjectMeta ns)) "pods"
              (ListOptions_limit 500)) r
        :: match r with
           | Ok pl => rows_trace RestLister.row (PodList.Items pl)
           | Err _ => []
           end
    ∧ o = match r with Ok pl => Done pl | Err e => Panicked e end.
Proof.
  unfold RestLister.each_namespace. cbn. intros (r & t' & -> & H).
  exists r. destruct r as [pl|e]; cbn in H.
  - apply exec_bind in H as [(a & t1 & t2 & H1 & [-> ->] & ->)|(v & H1 & ->)];
      apply exec_rows_trace in H1 as [-> E]; [|discriminate].
    by rewrite app_nil_r.
  - by destruct H as [-> ->].
Qed.

(** The loop over the namespaces: one list call per namespace, in order,
    up to the first that fails; the rows of every answer, in order. *)
Lemma exec_namespaces_detail rc l res t o :
  exec (range l (RestLister.each_namespace rc) res) t o →
  listings t `prefix_of` pods_of_namespace <$> l
  ∧ ((∃ r, o = Done r) → listings t = pods_of_namespace <$> l)
  ∧ printed t = row_lines RestLister.row (typed_answers t)
  ∧ namespaces_answers t = [].
Proof.
  revert res t. induction l as [|ns l IH]; intros res t.
  - intros [-> ->]. done.
  - intros H.
    change (exec (s' <- RestLister.each_namespace rc ns res ;;
                  range l (RestLister.each_namespace rc) s') t o) in H.
    apply exec_bind in H as [(a & t1 & t2 & H1 & H2 & ->)|(v & H1 & ->)];
      apply exec_each_namespace_trace in H1 as (r & -> & Hr);
      destruct r as [pl|e]; try discriminate Hr.
    + apply IH in H2 as (Hpre & Hall & Hpr & Hna).
      unfold listings, printed, typed_answers, namespaces_answers, row_lines in *.
      rewrite !omap_app. cbn.
      rewrite (omap_rows_trace listing_of), (omap_rows_trace typed_answer_of),
        (omap_rows_trace namespaces_answer_of) by done.
      fold (printed (rows_trace RestLister.row (PodList.Items pl))).
      rewrite printed_rows_trace, Hpr, Hna. cbn.
      repeat split; try done.
      * by apply prefix_cons.
      * intros Hd. by rewrite (Hall Hd).
    + unfold listings, printed, typed_answers, namespaces_answers, row_lines.
      cbn. repeat split; try done.
      * apply prefix_cons, prefix_nil.
      * by intros [r [=]].
Qed.

(** X5. The typed REST lister lists the namespaces once, without options,
    and then asks for the pods of each namespace it was answered, one call
    per namespace in the order of the answer, each with limit 500.  A run
    in which no call fails ends normally; a run that ends normally was
    answered exactly one list of namespaces and made exactly these list
    calls; and every run, however it ends, made a prefix of them: nothing
    or the list of the namespaces alone as long as that list has not been
    answered, and afterwards at most one answer and the calls for its
    namespaces in order. *)
Theorem rest_lister_one_list_per_namespace v t o :
  exec (rest_lister v) t o →
  (failures t = [] → o = Done tt)
  ∧ (o = Done tt →
     ∃ nss, namespaces_answers t = [nss]
       ∧ listings t
         = ListNamespaces ListOptions_zero :: (pods_of_namespace <$> nss))
  ∧ match namespaces_answers t with
    | [] => listings t `prefix_of` [ListNamespaces ListOptions_zero]
    | nss :: more =>
        more = []
        ∧ listings t
          `prefix_of` ListNamespaces ListOptions_zero :: (pods_of_namespace <$> nss)
    end.
Proof.
  intros H.
  destruct v; unfold rest_lister, RestLister.main, RestListerAnnotated.main in H;
    rewrite ?each_namespace_same in H; exec_inv H.
  all: try (split; [intros [=]|]; split; [intros [=]|]; cbn;
            first [apply prefix_nil | done]).
  all: apply exec_bind in H as [(a' & t1 & t2 & H1 & [-> E] & ->)|(m' & H1 & ->)];
    pose proof (exec_namespaces _ _ _ _ _ H1) as (_ & _ & Hf);
    apply exec_namespaces_detail in H1 as (Hpre & Hall & _ & Hna);
    rewrite ?app_nil_r in *.
  all: unfold listings, namespaces_answers, failures in *; cbn in *; rewrite Hna.
  all: split; [intros Hnf; rewrite Hnf in Hf; by destruct Hf as [? [=]]|].
  all: split; [|by split; [|apply prefix_cons]].
  all: intros Ho; try discriminate Ho.
  all: eexists; split; [done|]; rewrite Hall; eauto.
Qed.

(** Both listers on a cluster with two namespaces, and the plain one when
    the list call for the second namespace fails. *)
Lemma rest_lister_one_list_per_namespace_witness :
  let calls := [ ListNamespaces ListOptions_zero;
                 ListTyped "default" "pods" (ListOptions_limit 500);
                 ListTyped "kube-system" "pods" (ListOptions_limit 500) ] in
  (let r := run (Sim.step Sim.no_faults) (rest_lister Plain) Sim.two_namespaces in
   exec (rest_lister Plain) (events r) (final r)
   ∧ final r = Done tt
   ∧ namespaces_answers (events r) = [Sim.namespaces Sim.two_namespaces]
   ∧ listings (events r) = calls)
  ∧ (let r := run (Sim.step Sim.no_faults) (rest_lister Annotated) Sim.two_namespaces in
     exec (rest_lister Annotated) (events r) (final r)
     ∧ final r = Done tt
     ∧ namespaces_answers (events r) = [Sim.namespaces Sim.two_namespaces]
     ∧ listings (events r) = calls).
Proof.
  intros calls. split; intros r.
  all: match goal with
       | |- exec (rest_lister ?v) _ _ ∧ _ =>
           assert (exec (rest_lister v) (events r) (final r)) as H by exec_concrete;
           split; [exact H|];
           destruct (rest_lister_one_list_per_namespace v _ _ H) as (Hnf & Hdone & _)
       end.
  all: pose proof (Hnf eq_refl) as Ho.
  all: destruct (Hdone Ho) as (nss & Hna & Hl).
  all: injection Hna as <-.
  all: split; [exact Ho|]; split; [reflexivity|exact Hl].
Defined.

(** X6. What the typed REST lister prints: nothing as long as the
    namespaces have not been listed; after that, the header once and then
    the rows of every pod list it was answered, namespace after namespace
    and pod after pod in the order of the answers.  Rows printed before a
    later call fails stay printed. *)
Theorem rest_lister_output v t o :
  exec (rest_lister v) t o →
  printed t
  = match namespaces_answers t with
    | [] => []
    | _ :: _ => (rest_header v, []) :: row_lines RestLister.row (typed_answers t)
    end.
Proof.
  intros H.
  destruct v; unfold rest_lister, RestLister.main, RestListerAnnotated.main in H;
    rewrite ?each_namespace_same in H; exec_inv H; try done.
  all: apply exec_bind in H as [(a' & t1 & t2 & H1 & [-> E] & ->)|(m' & H1 & ->)];
    apply exec_namespaces_detail in H1 as (_ & _ & Hpr & Hna);
    rewrite ?app_nil_r.
  all: unfold printed, typed_answers, namespaces_answers in *; cbn; by rewrite Hpr.
Qed.

Lemma rest_lister_output_witness :
  let r := run (Sim.step Sim.fail_kube_system) (rest_lister Plain) Sim.two_namespaces in
  final r = Panicked "the server is currently unable to handle the request"
  ∧ printed (events r)
    = [ (RestLister.header, []);
        (RestLister.row, ["default"; "Running"; "web"]) ].
Proof.
  intros r. split; [reflexivity|].
  refine (rest_lister_output Plain (events r) (final r) _).
  exec_concrete.
Defined.

(** X7. The dynamic lister prints all or nothing: when any of its calls
    fails (configuration, client, list, conversion) the run ends in a panic
    with that error, nothing follows the failed call and nothing at all has
    been printed; when none fails it ends normally and the header is the
    first line. *)
Theorem dynamic_lister_all_or_nothing t o :
  exec DynamicLister.main t o →
  halts_on_failure t
  ∧ match failures t with
    | [] => o = Done tt ∧ head (printed t) = Some (DynamicLister.header, [])
    | m :: _ => o = Panicked m ∧ printed t = []
    end.
Proof.
  intros H. unfold DynamicLister.main in H. exec_inv H; try done.
  apply exec_rows in H as (-> & _ & _ & Hf & _ & Hh & _).
  unfold failures in *. cbn. by rewrite Hf.
Qed.

Lemma dynamic_lister_all_or_nothing_witness :
  let broken : Sim.faults := λ X c,
    match c with
    | FromUnstructured _ => Some "unrecognized type"
    | _ => None
    end in
  let r := run (Sim.step broken) DynamicLister.main Sim.two_namespaces in
  failures (events r) = ["unrecognized type"]
  ∧ final r = Panicked "unrecognized type" ∧ printed (events r) = [].
Proof.
  intros broken r. split; [reflexivity|].
  assert (exec DynamicLister.main (events r) (final r)) as H by exec_concrete.
  exact (proj2 (dynamic_lister_all_or_nothing _ _ H)).
Defined.

(** ** The provisioner against the simulated cluster, continued *)

Arguments Sim.namespace_exists : simpl never.

Arguments Sim.named : simpl never.

(** Sets up the symbolic run of a provisioner against the simulated
    cluster: one goal per shape of trace, with the answers the cluster
    gave as hypothesis [Hc]. *)
Ltac provisioner_on_sim r H Hc :=
  match goal with
  | |- context [run ?h (provisioner ?v) ?c] =>
      pose proof (run_exec h (provisioner v) c) as H;
      pose proof (run_consistent h (provisioner v) c) as Hc;
      rewrite ?(run_replay h (provisioner v) c);
      revert H Hc;
      generalize (events (run h (provisioner v) c)) (final (run h (provisioner v) c));
      intros ? ? H Hc
  end;
  provisioner_cases H; cbn in Hc;
  change ProvisionerAnnotated.NAMESPACE with Provisioner.NAMESPACE in *;
  change ProvisionerAnnotated.SERVICE_NAME with Provisioner.SERVICE_NAME in *;
  change ProvisionerAnnotated.DEPLOYMENT_NAME with Provisioner.DEPLOYMENT_NAME in *;
  change ProvisionerAnnotated.namespace with Provisioner.namespace in *;
  change ProvisionerAnnotated.service with Provisioner.service in *;
  destruct Hc as (-> & -> & Hc); try congruence.

(** X8. Create mode does not look before it writes: against a cluster in
    which the namespace already exists (a second create run, for one), the
    run panics at the namespace create, asks for nothing else, and leaves
    the cluster as it was. *)
Theorem create_on_existing_namespace v c :
  operate_of (Sim.command_line c) ≠ "clean" →
  Sim.namespace_exists Provisioner.NAMESPACE c = true →
  final (run (Sim.step Sim.no_faults) (provisioner v) c) = Panicked "already exists"
  ∧ operations (events (run (Sim.step Sim.no_faults) (provisioner v) c))
    = [CreateNamespace Provisioner.namespace CreateOptions_zero]
  ∧ state (run (Sim.step Sim.no_faults) (provisioner v) c) = c.
Proof.
  intros Hop Hex. provisioner_on_sim r H Hc.
  all: rewrite ?Hex in Hc; cbn in Hc; destruct_and?; simplify_eq.
  all: cbn; by rewrite Hex.
Qed.

Lemma create_on_existing_namespace_witness :
  let once := state (run (Sim.step Sim.no_faults) (provisioner Plain) Sim.empty) in
  let twice := run (Sim.step Sim.no_faults) (provisioner Plain) once in
  final twice = Panicked "already exists" ∧ state twice = once.
Proof.
  intros once twice.
  destruct (create_on_existing_namespace Plain once) as (Hf & _ & Hs).
  - vm_compute. discriminate.
  - reflexivity.
  - split; [exact Hf|exact Hs].
Defined.

(** X9. Clean mode does not look either: against a cluster without the
    service, the run panics at the service delete, the deployment and the
    namespace are not asked for even when they exist, and the cluster
    stays as it was. *)
Theorem clean_without_service v c :
  operate_of (Sim.command_line c) = "clean" →
  service_exists Provisioner.NAMESPACE Provisioner.SERVICE_NAME c = false →
  final (run (Sim.step Sim.no_faults) (provisioner v) c) = Panicked "not found"
  ∧ operations (events (run (Sim.step Sim.no_faults) (provisioner v) c))
    = [DeleteService Provisioner.NAMESPACE Provisioner.SERVICE_NAME DeleteOptions_zero]
  ∧ state (run (Sim.step Sim.no_faults) (provisioner v) c) = c.
Proof.
  intros Hop Hex. unfold service_exists in Hex. provisioner_on_sim r H Hc.
  all: rewrite ?Hex in Hc; cbn in Hc; destruct_and?; simplify_eq.
  all: cbn; by rewrite Hex.
Qed.

Lemma clean_without_service_witness :
  let no_service : Sim.faults := λ X c,
    match c with
    | Services_Create _ _ _ _ => Some "nodePort 30080 is already allocated"
    | _ => None
    end in
  let half := state (run (Sim.step no_service) (provisioner Plain) Sim.empty) in
  let c := Sim.with_command_line {[ "operate" := "clean" ]} half in
  let r := run (Sim.step Sim.no_faults) (provisioner Plain) c in
  Sim.namespace_exists Provisioner.NAMESPACE c = true
  ∧ deployment_exists Provisioner.NAMESPACE Provisioner.DEPLOYMENT_NAME c = true
  ∧ final r = Panicked "not found" ∧ state r = c.
Proof.
  intros no_service half c r. split; [reflexivity|]. split; [reflexivity|].
  destruct (clean_without_service Plain c) as (Hf & _ & Hs).
  - reflexivity.
  - reflexivity.
  - split; [exact Hf|exact Hs].
Defined.

Lemma namespace_exists_added c :
  Sim.namespace_exists Provisioner.NAMESPACE
    (Sim.with_namespaces (Sim.namespaces c ++ [Provisioner.namespace]) c) = true.
Proof.
  unfold Sim.namespace_exists. cbn. rewrite existsb_app. cbn.
  by rewrite orb_true_r.
Qed.

Lemma namespace_exists_with_deployments n l c :
  Sim.namespace_exists n (Sim.with_deployments l c) = Sim.namespace_exists n c.
Proof. reflexivity. Qed.

(** Rewrites the answers of the simulated cluster in [Hc] with the facts
    at hand. *)
Ltac sim_normalize Hc :=
  repeat first
    [ rewrite decide_True in Hc by done
    | rewrite namespace_exists_with_deployments in Hc
    | rewrite namespace_exists_added in Hc
    | match goal with
      | Hx : _ = false |- _ => rewrite Hx in Hc
      | Hx : _ = true |- _ => rewrite Hx in Hc
      end
    | progress change ProvisionerAnnotated.NAMESPACE with Provisioner.NAMESPACE in Hc
    | progress change ProvisionerAnnotated.SERVICE_NAME
        with Provisioner.SERVICE_NAME in Hc
    | progress change ProvisionerAnnotated.DEPLOYMENT_NAME
        with Provisioner.DEPLOYMENT_NAME in Hc
    | progress cbn in Hc ].

Ltac sim_normalize_goal :=
  repeat first
    [ rewrite decide_True by done
    | rewrite namespace_exists_with_deployments
    | rewrite namespace_exists_added
    | match goal with
      | Hx : _ = false |- _ => rewrite Hx
      | Hx : _ = true |- _ => rewrite Hx
      end
    | progress change ProvisionerAnnotated.NAMESPACE with Provisioner.NAMESPACE
    | progress change ProvisionerAnnotated.SERVICE_NAME with Provisioner.SERVICE_NAME
    | progress change ProvisionerAnnotated.DEPLOYMENT_NAME
        with Provisioner.DEPLOYMENT_NAME
    | progress cbn ].

Lemma sim_create_fresh v c :
  operate_of (Sim.command_line c) ≠ "clean" →
  Sim.namespace_exists Provisioner.NAMESPACE c = false →
  deployment_exists Provisioner.NAMESPACE Provisioner.DEPLOYMENT_NAME c = false →
  service_exists Provisioner.NAMESPACE Provisioner.SERVICE_NAME c = false →
  final (run (Sim.step Sim.no_faults) (provisioner v) c) = Done tt
  ∧ printed (events (run (Sim.step Sim.no_faults) (provisioner v) c))
    = [ operate_line (Sim.command_line c);
        ("Create namespace %s " +:+ NL, ["test-clientset"]);
        ("Create deployment %s " +:+ NL, ["client-test-deployment"]);
        ("Create service %s " +:+ NL, ["client-test-service"]) ]
  ∧ state (run (Sim.step Sim.no_faults) (provisioner v) c) = provisioned v c.
Proof.
  intros Hop Hns Hd Hs. unfold deployment_exists, service_exists in *.
  provisioner_on_sim r H Hc.
  all: sim_normalize Hc; destruct_and?; simplify_eq.
  all: split; [reflexivity|]; split; [reflexivity|].
  all: sim_normalize_goal; reflexivity.
Qed.

(** X10. Create mode against a cluster in which the three names are free
    and no call fails: the run ends normally, prints the operate line and
    the three confirmations with the fixed names, and the cluster is the
    one it was plus the namespace, the deployment and the service, each
    added once, the last two inside the namespace; nothing else changes. *)
Theorem create_on_fresh_cluster v c :
  operate_of (Sim.command_line c) ≠ "clean" →
  Sim.namespace_exists Provisioner.NAMESPACE c = false →
  deployment_exists Provisioner.NAMESPACE Provisioner.DEPLOYMENT_NAME c = false →
  service_exists Provisioner.NAMESPACE Provisioner.SERVICE_NAME c = false →
  final (run (Sim.step Sim.no_faults) (provisioner v) c) = Done tt
  ∧ printed (events (run (Sim.step Sim.no_faults) (provisioner v) c))
    = [ operate_line (Sim.command_line c);
        ("Create namespace %s " +:+ NL, ["test-clientset"]);
        ("Create deployment %s " +:+ NL, ["client-test-deployment"]);
        ("Create service %s " +:+ NL, ["client-test-service"]) ]
  ∧ state (run (Sim.step Sim.no_faults) (provisioner v) c) = provisioned v c.
Proof. apply sim_create_fresh. Qed.

Lemma create_on_fresh_cluster_witness :
  let c := Sim.two_namespaces in
  let r := run (Sim.step Sim.no_faults) (provisioner Annotated) c in
  final r = Done tt
  ∧ Sim.namespaces (state r) = Sim.namespaces c ++ [Provisioner.namespace]
  ∧ Sim.deployments (state r) = [stored_deployment Annotated]
  ∧ Sim.services (state r) = [stored_service]
  ∧ Sim.pods (state r) = Sim.pods c.
Proof.
  intros c r.
  destruct (create_on_fresh_cluster Annotated c) as (Hf & _ & Hs).
  - vm_compute. discriminate.
  - reflexivity.
  - reflexivity.
  - reflexivity.
  - split; [exact Hf|]. fold r in Hs. rewrite Hs. by repeat split.
Defined.

Lemma existsb_filter_false {A} (p : A → bool) (l : list A) :
  existsb p (filter (λ x, p x = false) l) = false.
Proof.
  induction l as [|x l IH]; [done|].
  destruct (p x) eqn:E.
  - by rewrite filter_cons_False by congruence.
  - rewrite filter_cons_True by done. cbn. by rewrite E.
Qed.

(** A namespace delete that returned without error left nothing of the
    namespace. *)
Lemma sim_namespace_delete_clears f cs name w :
  (Sim.step f _ (Namespaces_Delete cs name DeleteOptions_zero) w).1 = None →
  cleared name (Sim.step f _ (Namespaces_Delete cs name DeleteOptions_zero) w).2.
Proof.
  cbn. destruct (f _ _); [done|].
  destruct (Sim.namespace_exists name w) eqn:E; [intros _|done].
  cbn. unfold cleared. cbn. split; [|repeat split].
  - unfold Sim.namespace_exists. cbn.
    apply (existsb_filter_false (λ n, Sim.named "" name (Namespace.ObjectMeta n))).
  - intros x Hx. by apply list_elem_of_filter in Hx as [? _].
  - intros x Hx. by apply list_elem_of_filter in Hx as [? _].
  - intros x Hx. by apply list_elem_of_filter in Hx as [? _].
Qed.

Lemma sim_cleared_at_last f t w cs name :
  consistent (Sim.step f) t w →
  last t = Some (Ev (Namespaces_Delete cs name DeleteOptions_zero) None) →
  cleared name (replay (Sim.step f) t w).
Proof.
  revert w. induction t as [|e t IH]; intros w Hc Hl; [done|].
  destruct t as [|e' t].
  - injection Hl as ->. destruct Hc as [Hr _].
    by apply sim_namespace_delete_clears.
  - destruct e as [X c r]. destruct Hc as [_ Hc]. by apply IH.
Qed.

(** X11. Whatever the cluster holds and whichever calls are made to fail: a
    run in clean mode that ends normally leaves no namespace of the fixed
    name, and no pod, deployment or service inside it. *)
Theorem clean_leaves_nothing v f c :
  operate_of (Sim.command_line c) = "clean" →
  final (run (Sim.step f) (provisioner v) c) = Done tt →
  cleared Provisioner.NAMESPACE (state (run (Sim.step f) (provisioner v) c)).
Proof.
  intros Hop Hfin.
  pose proof (run_exec (Sim.step f) (provisioner v) c) as H.
  pose proof (run_consistent (Sim.step f) (provisioner v) c) as Hc.
  rewrite run_replay. revert Hfin H Hc.
  generalize (events (run (Sim.step f) (provisioner v) c))
             (final (run (Sim.step f) (provisioner v) c)).
  intros t o Hfin H Hc.
  assert (Sim.command_line c ∈ parsed_flags t) as Hp.
  { destruct (provisioner_startup _ _ _ H) as (home & parsed & t' & E & _ & ->).
    rewrite E in Hc. destruct Hc as (_ & -> & _). apply list_elem_of_here. }
  provisioner_cases H; cbn in Hp; apply list_elem_of_singleton in Hp.
  all: try discriminate Hfin; try congruence.
  all: by eapply sim_cleared_at_last.
Qed.

Lemma clean_leaves_nothing_witness :
  let c := Sim.with_command_line {[ "operate" := "clean" ]}
             (provisioned Plain Sim.two_namespaces) in
  let r := run (Sim.step Sim.no_faults) (provisioner Plain) c in
  final r = Done tt ∧ cleared Provisioner.NAMESPACE (state r).
Proof.
  intros c r. split; [reflexivity|].
  apply (clean_leaves_nothing Plain Sim.no_faults c); reflexivity.
Defined.

Lemma namespace_exists_with_services n l c :
  Sim.namespace_exists n (Sim.with_services l c) = Sim.namespace_exists n c.
Proof. reflexivity. Qed.

Lemma named_outside {A} (meta_of : A → ObjectMeta.t) ns name (l : list A) :
  filter (λ x, ObjectMeta.Namespace (meta_of x) ≠ ns)
    (filter (λ x, Sim.named ns name (meta_of x) = false) l)
  = filter (λ x, ObjectMeta.Namespace (meta_of x) ≠ ns) l.
Proof.
  apply list_filter_filter_l. intros x Hx. unfold Sim.named.
  apply bool_decide_eq_false. by intros [? _].
Qed.

Lemma sim_clean_all v w :
  operate_of (Sim.command_line w) = "clean" →
  service_exists Provisioner.NAMESPACE Provisioner.SERVICE_NAME w = true →
  deployment_exists Provisioner.NAMESPACE Provisioner.DEPLOYMENT_NAME w = true →
  Sim.namespace_exists Provisioner.NAMESPACE w = true →
  final (run (Sim.step Sim.no_faults) (provisioner v) w) = Done tt
  ∧ state (run (Sim.step Sim.no_faults) (provisioner v) w)
    = without_namespace Provisioner.NAMESPACE w.
Proof.
  intros Hop Hs Hd Hns. unfold deployment_exists, service_exists in *.
  provisioner_on_sim r H Hc.
  all: repeat first [ rewrite namespace_exists_with_services in Hc
                    | progress sim_normalize Hc ].
  all: destruct_and?; simplify_eq.
  all: split; [reflexivity|].
  all: repeat first [ rewrite namespace_exists_with_services
                    | progress sim_normalize_goal ].
  all: rewrite (named_outside Deployment.ObjectMeta),
         (named_outside Service.ObjectMeta); reflexivity.
Qed.

(** X12. Clean mode against a cluster that holds the service, the
    deployment and the namespace, with no call failing: the run ends
    normally, and the cluster is the one it was without the namespace and
    without the pods, deployments and services inside it; everything
    outside the namespace stays, in its order. *)
Theorem clean_removes_the_namespace v w :
  operate_of (Sim.command_line w) = "clean" →
  service_exists Provisioner.NAMESPACE Provisioner.SERVICE_NAME w = true →
  deployment_exists Provisioner.NAMESPACE Provisioner.DEPLOYMENT_NAME w = true →
  Sim.namespace_exists Provisioner.NAMESPACE w = true →
  final (run (Sim.step Sim.no_faults) (provisioner v) w) = Done tt
  ∧ state (run (Sim.step Sim.no_faults) (provisioner v) w)
    = without_namespace Provisioner.NAMESPACE w.
Proof. apply sim_clean_all. Qed.

Lemma clean_removes_the_namespace_witness :
  let w := Sim.with_command_line {[ "operate" := "clean" ]}
             (provisioned Plain Sim.two_namespaces) in
  let r := run (Sim.step Sim.no_faults) (provisioner Plain) w in
  final r = Done tt
  ∧ Sim.namespaces (state r) = Sim.namespaces Sim.two_namespaces
  ∧ Sim.pods (state r) = Sim.pods Sim.two_namespaces
  ∧ Sim.deployments (state r) = [] ∧ Sim.services (state r) = [].
Proof.
  intros w r.
  destruct (clean_removes_the_namespace Plain w) as [Hf Hs]; try reflexivity.
  split; [exact Hf|]. fold r in Hs. rewrite Hs. by vm_compute.
Defined.

Lemma existsb_named_outside {A} (meta_of : A → ObjectMeta.t) ns name (l : list A) :
  (∀ x, x ∈ l → ObjectMeta.Namespace (meta_of x) ≠ ns) →
  existsb (λ x, Sim.named ns name (meta_of x)) l = false.
Proof.
  intros Hall. induction l as [|x l IH]; [done|]. cbn.
  rewrite IH by (intros y Hy; by apply Hall, list_elem_of_further).
  rewrite orb_false_r. unfold Sim.named. apply bool_decide_eq_false.
  intros [Hx _]. by apply (Hall x (list_elem_of_here _ _)).
Qed.

Lemma filter_added {A} (P : A → Prop) `{∀ x, Decision (P x)} (l : list A) (x : A) :
  (∀ y, y ∈ l → P y) → ¬ P x → filter P (l ++ [x]) = l.
Proof.
  intros Hall Hx. rewrite filter_app, filter_all by done.
  rewrite filter_cons_False by done. by rewrite filter_nil, app_nil_r.
Qed.

Lemma sim_round_trip v c cl :
  operate_of (Sim.command_line c) ≠ "clean" → operate_of cl = "clean" →
  Sim.namespace_exists Provisioner.NAMESPACE c = false →
  (∀ x, x ∈ Sim.pods c →
     ObjectMeta.Namespace (Pod.ObjectMeta x) ≠ Provisioner.NAMESPACE) →
  (∀ x, x ∈ Sim.deployments c →
     ObjectMeta.Namespace (Deployment.ObjectMeta x) ≠ Provisioner.NAMESPACE) →
  (∀ x, x ∈ Sim.services c →
     ObjectMeta.Namespace (Service.ObjectMeta x) ≠ Provisioner.NAMESPACE) →
  let created := state (run (Sim.step Sim.no_faults) (provisioner v) c) in
  let r := run (Sim.step Sim.no_faults) (provisioner v)
             (Sim.with_command_line cl created) in
  final r = Done tt ∧ state r = Sim.with_command_line cl c.
Proof.
  intros Hop Hcl Hns Hp Hd Hs created r.
  destruct (sim_create_fresh v c) as (_ & _ & Hcreated); try done.
  { by apply (existsb_named_outside Deployment.ObjectMeta). }
  { by apply (existsb_named_outside Service.ObjectMeta). }
  fold created in Hcreated. subst r. rewrite Hcreated.
  destruct (sim_clean_all v (Sim.with_command_line cl (provisioned v c)))
    as [Hf Hst]; try done.
  { unfold service_exists. cbn. rewrite existsb_app. cbn.
    unfold Sim.named at 2. cbn. by rewrite orb_true_r. }
  { unfold deployment_exists. cbn. rewrite existsb_app. cbn.
    unfold Sim.named at 2. destruct v; cbn; by rewrite orb_true_r. }
  { apply namespace_exists_added. }
  split; [done|]. rewrite Hst.
  unfold without_namespace, Sim.with_command_line, provisioned. cbn.
  rewrite (filter_all _ (Sim.pods c)) by done.
  rewrite !filter_added; try done.
  - intros Hne. apply Hne. reflexivity.
  - intros Hne. apply Hne. reflexivity.
  - intros n Hn. destruct (Sim.named _ _ _) eqn:E; [|done].
    unfold Sim.namespace_exists in Hns.
    assert (existsb (λ n, Sim.named "" Provisioner.NAMESPACE (Namespace.ObjectMeta n))
              (Sim.namespaces c) = true) as Hex; [|congruence].
    apply existsb_exists. exists n. split; [by apply list_elem_of_In|done].
Qed.

(** X13. Create and then clean is a round trip: on a cluster where the
    namespace does not exist and nothing lives in it, with no call
    failing, a run in create mode followed by a run in clean mode ends
    normally and leaves the namespaces, pods, deployments and services
    exactly as they were before the create. *)
Theorem create_then_clean_restores v c cl :
  operate_of (Sim.command_line c) ≠ "clean" → operate_of cl = "clean" →
  Sim.namespace_exists Provisioner.NAMESPACE c = false →
  (∀ x, x ∈ Sim.pods c →
     ObjectMeta.Namespace (Pod.ObjectMeta x) ≠ Provisioner.NAMESPACE) →
  (∀ x, x ∈ Sim.deployments c →
     ObjectMeta.Namespace (Deployment.ObjectMeta x) ≠ Provisioner.NAMESPACE) →
  (∀ x, x ∈ Sim.services c →
     ObjectMeta.Namespace (Service.ObjectMeta x) ≠ Provisioner.NAMESPACE) →
  let created := state (run (Sim.step Sim.no_faults) (provisioner v) c) in
  let r := run (Sim.step Sim.no_faults) (provisioner v)
             (Sim.with_command_line cl created) in
  final r = Done tt ∧ state r = Sim.with_command_line cl c.
Proof. apply sim_round_trip. Qed.

Lemma create_then_clean_restores_witness :
  let c := Sim.two_namespaces in
  let cl : gmap string string := {[ "operate" := "clean" ]} in
  let created := state (run (Sim.step Sim.no_faults) (provisioner Plain) c) in
  let r := run (Sim.step Sim.no_faults) (provisioner Plain)
             (Sim.with_command_line cl created) in
  Sim.deployments created = [stored_deployment Plain]
  ∧ final r = Done tt ∧ state r = Sim.with_command_line cl c.
Proof.
  intros c cl created r. split; [reflexivity|].
  apply (create_then_clean_restores Plain c cl).
  - vm_compute. discriminate.
  - reflexivity.
  - reflexivity.
  - intros x Hx. cbn in Hx.
    repeat (apply elem_of_cons in Hx as [->|Hx]; [discriminate|]).
    by apply elem_of_nil in Hx.
  - intros x Hx. by apply elem_of_nil in Hx.
  - intros x Hx. by apply elem_of_nil in Hx.
Defined.

(** ** The listers against the simulated cluster, continued *)

Lemma in_namespace_named ns (m : ObjectMeta.t) :
  ns ≠ "" → (Sim.in_namespace ns m ↔ ObjectMeta.Namespace m = ns).
Proof.
  intros Hns. unfold Sim.in_namespace. rewrite bool_decide_spec.
  split; [intros [E|E]; [done|exact E]|intros E; by right].
Qed.

(** X14. Against the simulated cluster with no call failing, the dynamic
    lister ends normally and its rows are those of the first 100 pods of
    kube-system, in the order the cluster holds them: never more than 100
    rows, and never a pod of another namespace. *)
Theorem dynamic_lister_first_hundred c :
  let r := run (Sim.step Sim.no_faults) DynamicLister.main c in
  final r = Done tt
  ∧ tuples (events r)
    = pod_tuple <$> take 100 (filter (λ d, ObjectMeta.Namespace (Pod.ObjectMeta d)
                                           = "kube-system") (Sim.pods c))
  ∧ (length (tuples (events r)) ≤ 100)%nat
  ∧ ∀ row, row ∈ tuples (events r) → row.1.1 = "kube-system".
Proof.
  intros r. destruct (sim_dynamic_run c) as [Hf Ht]. fold r in Hf, Ht.
  assert (tuples (events r)
          = pod_tuple <$> take 100 (filter (λ d, ObjectMeta.Namespace (Pod.ObjectMeta d)
                                                 = "kube-system") (Sim.pods c))) as E.
  { rewrite Ht. unfold dynamic_rows, Sim.pods_listed. f_equal.
    change (Sim.limited (ListOptions.Limit (ListOptions_limit 100)))
      with (@take Pod.t 100).
    f_equal. apply list_filter_iff. intros d. by apply in_namespace_named. }
  split; [done|]. split; [done|]. rewrite E. split.
  - rewrite length_fmap, length_take. lia.
  - intros row Hrow. apply list_elem_of_fmap in Hrow as (d & -> & Hd).
    apply subseteq_take in Hd. by apply list_elem_of_filter in Hd as [? _].
Qed.

(** X15. Against the simulated cluster with no call failing, the typed REST
    lister ends normally; every row it prints is the row of a pod the
    cluster holds; and it prints the row of every pod whose namespace the
    cluster lists, as long as that namespace holds at most 500 pods. *)
Theorem rest_lister_rows_of_the_cluster v c :
  let r := run (Sim.step Sim.no_faults) (rest_lister v) c in
  final r = Done tt
  ∧ (∀ row, row ∈ tuples (events r) → ∃ d, d ∈ Sim.pods c ∧ row = pod_tuple d)
  ∧ (∀ d n,
       d ∈ Sim.pods c → n ∈ Sim.namespaces c →
       ObjectMeta.Name (Namespace.ObjectMeta n)
       = ObjectMeta.Namespace (Pod.ObjectMeta d) →
       ObjectMeta.Namespace (Pod.ObjectMeta d) ≠ "" →
       (length (filter (λ x, ObjectMeta.Namespace (Pod.ObjectMeta x)
                             = ObjectMeta.Namespace (Pod.ObjectMeta d))
                  (Sim.pods c)) ≤ 500)%nat →
       pod_tuple d ∈ tuples (events r)).
Proof.
  intros r. destruct (sim_typed_run v c) as [Hf Ht]. fold r in Hf, Ht.
  split; [done|]. rewrite Ht. unfold typed_rows. split.
  - intros row Hrow. apply list_elem_of_bind in Hrow as (n & Hrow & _).
    apply list_elem_of_fmap in Hrow as (d & -> & Hd).
    exists d. split; [|done]. by apply pods_listed_subseteq in Hd.
  - intros d n Hd Hn Hname Hne Hlen.
    apply list_elem_of_bind. exists n. split; [|done].
    apply list_elem_of_fmap_2. rewrite Hname. unfold Sim.pods_listed.
    rewrite (list_filter_iff _ (λ x, ObjectMeta.Namespace (Pod.ObjectMeta x)
                                     = ObjectMeta.Namespace (Pod.ObjectMeta d)))
      by (intros x; by apply in_namespace_named).
    change (Sim.limited (ListOptions.Limit (ListOptions_limit 500)))
      with (@take Pod.t 500).
    rewrite take_ge by done. by apply list_elem_of_filter.
Qed.

(** X16. The three listers only read: no run of theirs asks for a create or
    a delete, whatever the environment answers; so against the simulated
    cluster, with any calls made to fail, they leave it as it was. *)
Theorem listers_never_write p :
  p ∈ listers →
  (∀ t o, exec p t o → operations t = [])
  ∧ ∀ f c, state (run (Sim.step f) p c) = c.
Proof.
  intros Hp.
  assert (∀ t o, exec p t o → operations t = []) as Hops.
  { intros t o H. unfold listers in Hp.
    repeat (apply elem_of_cons in Hp as [->|Hp]); [..|by apply elem_of_nil in Hp].
    - unfold DynamicLister.main in H. exec_inv H; try done.
      apply exec_rows in H as (_ & _ & _ & _ & _ & _ & Ho & _).
      unfold operations in *. cbn. done.
    - unfold RestLister.main in H. exec_inv H; try done.
      apply exec_bind in H as [(a' & t1 & t2 & H1 & [-> E] & ->)|(m' & H1 & ->)];
        apply exec_namespaces in H1 as (_ & Ho & _);
        rewrite ?app_nil_r; unfold operations in *; cbn; done.
    - unfold RestListerAnnotated.main in H. rewrite each_namespace_same in H.
      exec_inv H; try done.
      apply exec_bind in H as [(a' & t1 & t2 & H1 & [-> E] & ->)|(m' & H1 & ->)];
        apply exec_namespaces in H1 as (_ & Ho & _);
        rewrite ?app_nil_r; unfold operations in *; cbn; done. }
  split; [done|]. intros f c. rewrite run_replay.
  apply sim_replay_reads. eapply Hops, run_exec.
Qed.

Lemma listers_never_write_witness :
  state (run (Sim.step Sim.fail_kube_system) RestLister.main Sim.two_namespaces)
  = Sim.two_namespaces.
Proof.
  refine (proj2 (listers_never_write RestLister.main _) _ _).
  apply list_elem_of_further, list_elem_of_here.
Defined.

(** ** The provisioner: its two modes together, and its errors *)

(** X17. Clean undoes what create did, in reverse: a clean run that ends
    normally addresses the same three objects (kind, namespace, name) as a
    create run that ends normally, in the opposite order; and the
    deployment and the service of a create run are placed in the namespace
    that the run created first. *)
Theorem clean_reverses_create v v' t o t' o' parsed parsed' :
  exec (provisioner v) t o → parsed ∈ parsed_flags t →
  operate_of parsed ≠ "clean" → o = Done tt →
  exec (provisioner v') t' o' → parsed' ∈ parsed_flags t' →
  operate_of parsed' = "clean" → o' = Done tt →
  targets t' = reverse (targets t)
  ∧ ∀ k n x, (k, n, x) ∈ targets t → k ≠ NamespaceKind →
      head (targets t) = Some (NamespaceKind, "", n).
Proof.
  intros H Hp Hop Ho H' Hp' Hop' Ho'.
  destruct (create_mode _ _ _ _ H Hp Hop) as (_ & _ & E & _).
  destruct (clean_mode _ _ _ _ H' Hp' Hop') as (_ & _ & E' & _).
  unfold targets. rewrite (E Ho), (E' Ho'). split; [by destruct v|].
  intros k n x Hin Hk. destruct v; cbn in Hin |- *.
  all: repeat (apply elem_of_cons in Hin as [Hin|Hin]);
    try (by apply elem_of_nil in Hin); by simplify_eq.
Qed.

Lemma clean_reverses_create_witness :
  let created := run (Sim.step Sim.no_faults) (provisioner Annotated) Sim.empty in
  let c := Sim.with_command_line {[ "operate" := "clean" ]} (state created) in
  let cleaned := run (Sim.step Sim.no_faults) (provisioner Plain) c in
  targets (events created)
  = [ (NamespaceKind, "", "test-clientset");
      (DeploymentKind, "test-clientset", "client-test-deployment");
      (ServiceKind, "test-clientset", "client-test-service") ]
  ∧ targets (events cleaned) = reverse (targets (events created)).
Proof.
  intros created c cleaned. split; [reflexivity|].
  refine (proj1 (clean_reverses_create Annotated Plain
                   (events created) (final created) (events cleaned) (final cleaned)
                   ∅ {[ "operate" := "clean" ]} _ _ _ _ _ _ _ _)).
  - exec_concrete.
  - apply list_elem_of_here.
  - vm_compute. discriminate.
  - reflexivity.
  - exec_concrete.
  - apply list_elem_of_here.
  - reflexivity.
  - reflexivity.
Defined.

(** X18. Every error is fatal to the provisioner, in either mode and at any
    step from loading the configuration to the last write: the call that
    returned it is the last thing the run did and the run ends in a panic
    with that error; a run in which no call failed ends normally. *)
Theorem provisioner_aborts v t o :
  exec (provisioner v) t o →
  halts_on_failure t
  ∧ match failures t with
    | [] => o = Done tt
    | m :: rest => o = Panicked m ∧ rest = []
    end.
Proof.
  intros H. provisioner_cases H.
  all: repeat match goal with u : () |- _ => destruct u end.
  all: cbn; done.
Qed.

Lemma provisioner_aborts_witness :
  let r := run (Sim.step Sim.reject_deployments) (provisioner Annotated) Sim.empty in
  failures (events r) = ["admission webhook denied the request"]
  ∧ halts_on_failure (events r)
  ∧ final r = Panicked "admission webhook denied the request".
Proof.
  intros r. split; [reflexivity|].
  assert (exec (provisioner Annotated) (events r) (final r)) as H by exec_concrete.
  destruct (provisioner_aborts Annotated _ _ H) as [Hh Hf].
  split; [exact Hh|exact (proj1 Hf)].
Defined.

(** ** The discovery program *)

Lemma discovery_exec_bind {A B} (p : Discovery.prog A) (f : A → Discovery.prog B) t o :
  Discovery.exec (Discovery.bind p f) t o ↔
    (∃ a t1 t2, Discovery.exec p t1 (Done a) ∧ Discovery.exec (f a) t2 o
                ∧ t = t1 ++ t2)
    ∨ (∃ v, Discovery.exec p t (Panicked v) ∧ o = Panicked v).
Proof.
  revert t. induction p as [a|v|X c k IH]; intros t; simpl.
  - split.
    + intros Hf. left. by exists a, [], t.
    + intros [(a' & t1 & t2 & [-> Ha] & Hf & ->)|(v & [_ Hv] & _)];
        [by simplify_eq|discriminate].
  - split.
    + intros [-> ->]. right. by exists v.
    + intros [(a' & t1 & t2 & [_ Ha] & _)|(v' & [-> Hv] & ->)];
        [discriminate|by simplify_eq].
  - split.
    + intros (r & t' & -> & Hk).
      apply IH in Hk as [(a & t1 & t2 & H1 & H2 & ->)|(v & H1 & ->)].
      * left. exists a, (Discovery.Ev c r :: t1), t2. eauto 10.
      * right. exists v. eauto 10.
    + intros [(a & t1 & t2 & (r & t' & -> & H1) & H2 & ->)
             |(v & (r & t' & -> & H1) & ->)].
      * exists r, (t' ++ t2). split; [done|]. apply IH. left. eauto 10.
      * exists r, t'. split; [done|]. apply IH. right. eauto.
Qed.

(** The loop over the resources of one list prints their names and cannot
    fail. *)
Lemma discovery_exec_names (l : list Discovery.APIResource.t) t o :
  Discovery.exec
    (Discovery.range l
       (λ r, Discovery.perform
               (Discovery.fmt_Printf Discovery.name_line
                  [Discovery.AString (Discovery.APIResource.Name r)]))) t o →
  o = Done tt
  ∧ Discovery.printed t
    = (λ r, (Discovery.name_line,
             [Discovery.AString (Discovery.APIResource.Name r)])) <$> l
  ∧ Discovery.parses t = [] ∧ Discovery.found t = [].
Proof.
  revert t. induction l as [|r l IH]; intros t; simpl.
  - by intros [-> ->].
  - intros ([] & t' & -> & H). destruct (IH _ H) as (-> & Hp & Hq & Hf).
    unfold Discovery.printed, Discovery.parses, Discovery.found in *. cbn.
    by rewrite Hp, Hq, Hf.
Qed.

(** The loop over the resource lists, when the parser answers as the
    function [parse]. *)
Lemma discovery_exec_lists parse (ls : list Discovery.APIResourceList.t) t o :
  Discovery.exec (Discovery.range ls Discovery.each_list) t o →
  (∀ s r, (s, r) ∈ Discovery.parses t → r = parse s) →
  Discovery.printed t = Discovery.blocks parse ls
  ∧ o = Discovery.ending parse ls
  ∧ Discovery.found t = [].
Proof.
  revert t. induction ls as [|l ls IH]; intros t.
  - by intros [-> ->] _.
  - intros H Hparse.
    change (Discovery.exec
              (Discovery.bind (Discovery.each_list l)
                 (λ _, Discovery.range ls Discovery.each_list)) t o) in H.
    apply discovery_exec_bind in H as [(a & t1 & t2 & H1 & H2 & ->)|(v & H1 & ->)].
    + unfold Discovery.each_list in H1. cbn in H1.
      destruct H1 as (r & t' & -> & H1).
      assert (r = parse (Discovery.APIResourceList.GroupVersion l)) as Er.
      { apply Hparse. unfold Discovery.parses. cbn. apply list_elem_of_here. }
      destruct r as [gv|e]; cbn in H1; [|by destruct H1 as [_ [=]]].
      destruct H1 as ([] & t1' & -> & [] & t1'' & -> & H1).
      apply discovery_exec_names in H1 as (_ & Hp & Hq & Hf).
      destruct (IH t2 H2) as (Hp2 & Ho2 & Hf2).
      { intros s r Hin. apply Hparse. unfold Discovery.parses in *. cbn.
        rewrite omap_app. apply list_elem_of_further, elem_of_app. by right. }
      unfold Discovery.printed, Discovery.parses, Discovery.found in *. cbn.
      rewrite <- Er, !omap_app, Hp, Hp2, Hf, Hf2. done.
    + unfold Discovery.each_list in H1. cbn in H1.
      destruct H1 as (r & t' & -> & H1).
      assert (r = parse (Discovery.APIResourceList.GroupVersion l)) as Er.
      { apply Hparse. unfold Discovery.parses. cbn. apply list_elem_of_here. }
      destruct r as [gv|e]; cbn in H1.
      * destruct H1 as ([] & t1' & -> & [] & t1'' & -> & H1).
        apply discovery_exec_names in H1 as ([=] & _).
      * destruct H1 as [-> [= ->]]. cbn. by rewrite <- Er.
Qed.

(** X19. What the discovery program prints once the cluster has answered
    its groups and resource lists, with the library's parser standing as
    the function [parse]: the dump of the groups, then for each resource
    list in order a block (separator, the group-version string with its
    parsed form, one line per resource name), up to the first
    group-version that does not parse; there the run panics with the
    parser's error and the blocks printed before it stay printed.  When
    all parse, the run ends normally. *)
Theorem discovery_prints_blocks parse t o groups lists :
  Discovery.exec Discovery.main t o →
  (groups, lists) ∈ Discovery.found t →
  (∀ s r, (s, r) ∈ Discovery.parses t → r = parse s) →
  Discovery.printed t
  = (Discovery.groups_line, [Discovery.AGroups groups])
    :: Discovery.blocks parse lists
  ∧ o = Discovery.ending parse lists.
Proof.
  intros H Hin Hparse. unfold Discovery.main in H. cbn in H.
  destruct H as (home & t1 & -> & parsed & t2 & -> & rc & t3 & -> & H).
  destruct rc as [cfg|e]; cbn in H;
    [|destruct H as [-> ->]; by apply elem_of_nil in Hin].
  destruct H as (rd & t4 & -> & H).
  destruct rd as [dc|e]; cbn in H;
    [|destruct H as [-> ->]; by apply elem_of_nil in Hin].
  destruct H as (rf & t5 & -> & H).
  destruct rf as [[gs ls]|e]; cbn in H;
    [|destruct H as [-> ->]; by apply elem_of_nil in Hin].
  destruct H as ([] & t6 & -> & H).
  destruct (discovery_exec_lists parse ls t6 o H) as (Hp & Ho & Hf).
  { intros s r Hsr. by apply Hparse. }
  unfold Discovery.found in Hin. cbn in Hin.
  fold (Discovery.found t6) in Hin. rewrite Hf in Hin.
  apply list_elem_of_singleton in Hin. simplify_eq.
  unfold Discovery.printed in *. cbn. by rewrite Hp.
Qed.

Lemma discovery_prints_blocks_witness :
  let r := Discovery.run (sample_oracle sample_lists) Discovery.main in
  r.1 = Panicked "unexpected GroupVersion string: a/b/c"
  ∧ Discovery.printed r.2
    = [ (Discovery.groups_line, [Discovery.AGroups sample_groups]);
        ("", [Discovery.AString Discovery.separator]);
        (Discovery.gv_line,
         [Discovery.AString "v1";
          Discovery.AGroupVersion
            {| GroupVersion.Group := ""; GroupVersion.Version := "v1" |}]);
        (Discovery.name_line, [Discovery.AString "pods"]);
        ("", [Discovery.AString Discovery.separator]);
        (Discovery.gv_line,
         [Discovery.AString "apps/v1";
          Discovery.AGroupVersion
            {| GroupVersion.Group := "apps"; GroupVersion.Version := "v1" |}]);
        (Discovery.name_line, [Discovery.AString "deployments"]) ].
Proof.
  intros r.
  destruct (discovery_prints_blocks sample_parse r.2 r.1 sample_groups sample_lists)
    as [Hp Ho].
  - exec_concrete.
  - apply list_elem_of_here.
  - intros s a Hin. cbn in Hin.
    repeat (apply elem_of_cons in Hin as [Hin|Hin]; [by simplify_eq|]).
    by apply elem_of_nil in Hin.
  - split; [exact Ho|exact Hp].
Defined.

(** X20. As long as the discovery call has not succeeded (the
    configuration, the client or the discovery itself failed), the
    discovery program has printed nothing, asked the parser nothing, and
    ends in a panic. *)
Theorem discovery_fails_silently t o :
  Discovery.exec Discovery.main t o → Discovery.found t = [] →
  Discovery.printed t = [] ∧ Discovery.parses t = [] ∧ ∃ m, o = Panicked m.
Proof.
  intros H Hf. unfold Discovery.main in H. cbn in H.
  destruct H as (home & t1 & -> & parsed & t2 & -> & rc & t3 & -> & H).
  destruct rc as [cfg|e]; cbn in H; [|destruct H as [-> ->]; eauto].
  destruct H as (rd & t4 & -> & H).
  destruct rd as [dc|e]; cbn in H; [|destruct H as [-> ->]; eauto].
  destruct H as (rf & t5 & -> & H).
  destruct rf as [[gs ls]|e]; cbn in H; [|destruct H as [-> ->]; eauto].
  destruct H as ([] & t6 & -> & H). discriminate Hf.
Qed.

Lemma discovery_fails_silently_witness :
  let r := Discovery.run unreachable_oracle Discovery.main in
  r.1 = Panicked "the server is currently unable to handle the request"
  ∧ Discovery.printed r.2 = [] ∧ Discovery.parses r.2 = []
  ∧ ∃ m, r.1 = Panicked m.
Proof.
  intros r. split; [reflexivity|].
  apply (discovery_fails_silently r.2 r.1).
  - exec_concrete.
  - reflexivity.
Defined.

Lemma dynamic_lister_first_hundred_witness :
  let r := run (Sim.step Sim.no_faults) DynamicLister.main Sim.two_namespaces in
  tuples (events r) = [("kube-system", "Running", "coredns")]
  ∧ (length (tuples (events r)) ≤ 100)%nat.
Proof.
  intros r.
  destruct (dynamic_lister_first_hundred Sim.two_namespaces) as (_ & Ht & Hl & _).
  split; [exact Ht|exact Hl].
Defined.

Lemma rest_lister_rows_of_the_cluster_witness :
  let r := run (Sim.step Sim.no_faults) (rest_lister Annotated) Sim.two_namespaces in
  ("default", "Running", "web") ∈ tuples (events r).
Proof.
  intros r.
  destruct (rest_lister_rows_of_the_cluster Annotated Sim.two_namespaces)
    as (_ & _ & Hall).
  refine (Hall (Sim.pod "default" "web" "Running")
               {| Namespace.ObjectMeta := meta "default" |} _ _ _ _ _).
  - apply list_elem_of_here.
  - apply list_elem_of_here.
  - reflexivity.
  - discriminate.
  - vm_compute. lia.
Defined.
